(** * mp3Splitting: the timestamp-config parser of [split.py]

    A shallow embedding of [process_conf], [time_stamp_to_seconds] and the
    two regular expressions of [split.py], with the properties of the
    parser and of the track-boundary resolver.  [process_tracks] and [main]
    are embedded up to the audio, tag and file-system libraries: what they
    pass to those libraries (slice bounds, file names, tags) and the ways
    [main] ends.

    Character model.  A Python [str] is modelled as a [string] of
    code points below 256 (the type [ascii]).  On that range [\d] is
    exactly [0-9], [str.isspace] is the set given by [isspace] below, and
    [.] is every character but the line feed.  Python integers are [Z].
    The interpreter's limit on the number of digits [int()] converts
    (a run-time setting) is not part of the model. *)

From Stdlib Require Import String Ascii List ZArith NArith Bool Lia Arith
  Permutation.
Import ListNotations.

Local Open Scope string_scope.
Local Open Scope Z_scope.

(** ** Python string primitives *)

Module PyStr.

Definition code (a : ascii) : N := N_of_ascii a.

(** [str.isspace] on one character. *)
Definition isspace (a : ascii) : bool :=
  let n := code a in
  (((9 <=? n) && (n <=? 13)) || ((28 <=? n) && (n <=? 32))
   || (n =? 133) || (n =? 160))%N.

(** [\d] of a [str] pattern, and the decimal digits [int()] reads. *)
Definition isdigit (a : ascii) : bool :=
  let n := code a in ((48 <=? n) && (n <=? 57))%N.

Definition digit_value (a : ascii) : Z := Z.of_N (code a) - 48.

Fixpoint lstrip (s : string) : string :=
  match s with
  | EmptyString => EmptyString
  | String a s' => if isspace a then lstrip s' else s
  end.

Fixpoint rstrip (s : string) : string :=
  match s with
  | EmptyString => EmptyString
  | String a s' =>
      match rstrip s' with
      | EmptyString => if isspace a then EmptyString else String a EmptyString
      | t => String a t
      end
  end.

(** [s.strip()] *)
Definition strip (s : string) : string := rstrip (lstrip s).

(** [not s] for a string: true on the empty string. *)
Definition is_empty (s : string) : bool :=
  match s with EmptyString => true | _ => false end.

(** [s.split(sep)] for a one-character separator: never the empty list. *)
Fixpoint split (sep : ascii) (s : string) : list string :=
  match s with
  | EmptyString => [EmptyString]
  | String a s' =>
      if Ascii.eqb a sep then EmptyString :: split sep s'
      else match split sep s' with
           | p :: ps => String a p :: ps
           | [] => [String a EmptyString]
           end
  end.

(** [sep.join(parts)] *)
Fixpoint join (sep : string) (parts : list string) : string :=
  match parts with
  | [] => EmptyString
  | [p] => p
  | p :: ps => p ++ sep ++ join sep ps
  end.

(** The first [n] characters, [s[:n]]. *)
Fixpoint take (n : nat) (s : string) : string :=
  match n, s with
  | S n', String a s' => String a (take n' s')
  | _, _ => EmptyString
  end.

Fixpoint all_chars (p : ascii -> bool) (s : string) : bool :=
  match s with
  | EmptyString => true
  | String a s' => p a && all_chars p s'
  end.

(** A non-empty run of decimal digits. *)
Definition is_digits (s : string) : bool :=
  negb (is_empty s) && all_chars isdigit s.

(** The number a digit run denotes, most significant digit first. *)
Fixpoint digits_value_from (acc : Z) (s : string) : Z :=
  match s with
  | EmptyString => acc
  | String a s' => digits_value_from (10 * acc + digit_value a) s'
  end.

Definition digits_value (s : string) : Z := digits_value_from 0 s.

End PyStr.

(** ** A backtracking matcher for the fragment of [re] the patterns use *)

Module Re.

Import PyStr.

Inductive charset : Type :=
| Lit (a : ascii)            (* one literal character *)
| Digit                      (* \d *)
| AnyChar                    (* .   (without DOTALL) *)
| OneOf (l : list ascii).    (* [...] *)

Inductive regex : Type :=
| Chr (cs : charset)
| Cat (r1 r2 : regex)
| Opt (r : regex)            (* r{0,1}, greedy *)
| Plus (r : regex)           (* r+, greedy *)
| LazyStar (r : regex)       (* r*?, lazy *)
| Group (n : nat) (r : regex)
| EndAnchor.                 (* $   (without MULTILINE) *)

Definition in_charset (cs : charset) (a : ascii) : bool :=
  match cs with
  | Lit b => Ascii.eqb a b
  | Digit => isdigit a
  | AnyChar => negb (Ascii.eqb a "010"%char)
  | OneOf l => existsb (Ascii.eqb a) l
  end.

(** The text of the groups that took part in the match, latest first. *)
Definition captures : Type := list (nat * string).

Fixpoint group (m : captures) (n : nat) : option string :=
  match m with
  | [] => None
  | (i, v) :: m' => if Nat.eqb i n then Some v else group m' n
  end.

Definition cont : Type := string -> captures -> option captures.

(** [$]: at the end of the subject, or just before a final line feed. *)
Definition at_end (s : string) : bool :=
  match s with
  | EmptyString => true
  | String a EmptyString => Ascii.eqb a "010"%char
  | _ => false
  end.

Section Rounds.

(** The matcher of the repeated expression, and the rest of the
    pattern. *)
Variable body : string -> captures -> cont -> option captures.
Variable k : cont.

(** The rounds of a greedy [+]: after a round, one more round is tried
    before the rest of the pattern. *)
Fixpoint greedy_rounds (fuel : nat) (s : string) (c : captures)
  {struct fuel} : option captures :=
  body s c (fun s' c' =>
    match fuel with
    | O => k s' c'
    | S fuel' =>
        if (String.length s' <? String.length s)%nat then
          match greedy_rounds fuel' s' c' with
          | Some m => Some m
          | None => k s' c'
          end
        else k s' c'
    end).

(** The rounds of a lazy [*?]: the rest of the pattern is tried before
    one more round. *)
Fixpoint lazy_rounds (fuel : nat) (s : string) (c : captures)
  {struct fuel} : option captures :=
  match k s c with
  | Some m => Some m
  | None =>
      match fuel with
      | O => None
      | S fuel' =>
          body s c (fun s' c' =>
            if (String.length s' <? String.length s)%nat
            then lazy_rounds fuel' s' c' else None)
      end
  end.

End Rounds.

(** [rmatch r s c k]: match [r] at the front of [s] with the groups [c]
    seen so far, then run the rest of the pattern [k] on what is left.
    Alternatives are tried in the order of [re]: a greedy repetition
    tries one more round before it stops, a lazy one stops before it
    tries one more round.  A round of a repetition has to consume input
    to be followed by another round, so the length of the subject bounds
    the number of rounds. *)
Fixpoint rmatch (r : regex) (s : string) (c : captures) (k : cont)
  {struct r} : option captures :=
  match r with
  | Chr cs =>
      match s with
      | String a s' => if in_charset cs a then k s' c else None
      | EmptyString => None
      end
  | Cat r1 r2 => rmatch r1 s c (fun s' c' => rmatch r2 s' c' k)
  | Opt r1 =>
      match rmatch r1 s c k with
      | Some m => Some m
      | None => k s c
      end
  | Plus r1 => greedy_rounds (rmatch r1) k (String.length s) s c
  | LazyStar r1 => lazy_rounds (rmatch r1) k (String.length s) s c
  | Group n r1 =>
      rmatch r1 s c (fun s' c' =>
        k s' ((n, take (String.length s - String.length s') s) :: c'))
  | EndAnchor => if at_end s then k s c else None
  end.

(** [re.match]: a match that starts at the front of [s]. *)
Definition re_match (r : regex) (s : string) : option captures :=
  rmatch r s [] (fun _ c => Some c).

(** [re.search]: the match at the leftmost position that has one. *)
Fixpoint re_search (r : regex) (s : string) : option captures :=
  match re_match r s with
  | Some m => Some m
  | None =>
      match s with
      | EmptyString => None
      | String _ s' => re_search r s'
      end
  end.

Declare Scope regex_scope.
Delimit Scope regex_scope with re.
Notation "r1 '+>' r2" := (Cat r1 r2)
  (at level 61, right associativity) : regex_scope.

End Re.

Import PyStr Re.

(** [CONFIG_PATTERN]:
    [#{0,1}(\d+)( [-\|]){0,1} (.*?)( [-\|]){0,1} ((\d{2}\:{0,1})+)] *)
Definition CONFIG_PATTERN : regex :=
  (Opt (Chr (Lit "#")) +>
   Group 1 (Plus (Chr Digit)) +>
   Opt (Group 2 (Chr (Lit " ") +> Chr (OneOf ["-"; "|"]%char))) +>
   Chr (Lit " ") +>
   Group 3 (LazyStar (Chr AnyChar)) +>
   Opt (Group 4 (Chr (Lit " ") +> Chr (OneOf ["-"; "|"]%char))) +>
   Chr (Lit " ") +>
   Group 5 (Plus (Group 6 (Chr Digit +> Chr Digit +> Opt (Chr (Lit ":"))))))%re.

(** [ALT_CONFIG_PATTERN]:
    [((\d{2}\:{0,1})+)( [-\|]){0,1} (.*?)$] *)
Definition ALT_CONFIG_PATTERN : regex :=
  (Group 1 (Plus (Group 2 (Chr Digit +> Chr Digit +> Opt (Chr (Lit ":"))))) +>
   Opt (Group 3 (Chr (Lit " ") +> Chr (OneOf ["-"; "|"]%char))) +>
   Chr (Lit " ") +>
   Group 4 (LazyStar (Chr AnyChar)) +>
   EndAnchor)%re.

(** ** Errors and the error monad *)

(** The exceptions the parser raises, by what they carry. *)
Inductive error : Type :=
| FileNotFoundError (file_path : string)
    (* FileNotFoundError(f'Configuration path is not a file: {file_path}') *)
| LineParseFailure (line_number : Z) (line : string)
    (* ValueError(f'Failed to parse config: line #{line_number} - {line}') *)
| UnsupportedTimestampFormat (time_stamp : string)
    (* ValueError(f"Unsupported timestamp format: {time_stamp}") *)
| InvalidLiteral (s : string)
    (* the ValueError of int(s): invalid literal for int() with base 10 *)
| NoneGroup (n : nat).
    (* match.group(n) is None: the TypeError of int(None), the
       AttributeError of None.strip() or None.split(':') *)

Definition result (A : Type) : Type := (error + A)%type.

Definition ret {A : Type} (a : A) : result A := inr a.
Definition raise {A : Type} (e : error) : result A := inl e.

Definition bind {A B : Type} (m : result A) (f : A -> result B) : result B :=
  match m with
  | inl e => inl e
  | inr a => f a
  end.

Declare Scope result_scope.
Delimit Scope result_scope with result.
Notation "x <- m ;; f" := (bind m (fun x => f))
  (at level 62, m at next level, right associativity) : result_scope.
Notation "' p <- m ;; f" := (bind m (fun x => match x with p => f end))
  (at level 62, p pattern, m at next level, right associativity) : result_scope.
Local Open Scope result_scope.

(** [map(f, l)] forced by [list(...)]: the first exception wins. *)
Fixpoint map_result {A B : Type} (f : A -> result B) (l : list A)
  : result (list B) :=
  match l with
  | [] => ret []
  | a :: l' => b <- f a ;; bs <- map_result f l' ;; ret (b :: bs)
  end.

(** ** [int()] on a string *)

(** The blanks [int()] skips around the literal. *)
Definition int_blank (a : ascii) : bool :=
  let n := code a in
  (((9 <=? n) && (n <=? 13)) || (n =? 32) || (n =? 133) || (n =? 160))%N.

Fixpoint lskip (p : ascii -> bool) (s : string) : string :=
  match s with
  | EmptyString => EmptyString
  | String a s' => if p a then lskip p s' else s
  end.

Fixpoint rskip (p : ascii -> bool) (s : string) : string :=
  match s with
  | EmptyString => EmptyString
  | String a s' =>
      match rskip p s' with
      | EmptyString => if p a then EmptyString else String a EmptyString
      | t => String a t
      end
  end.

(** Digits with single underscores between them; [after_digit] tells
    whether the previous character was a digit. *)
Fixpoint int_digits (acc : Z) (after_digit : bool) (s : string) : option Z :=
  match s with
  | EmptyString => if after_digit then Some acc else None
  | String a s' =>
      if isdigit a then int_digits (10 * acc + digit_value a) true s'
      else if Ascii.eqb a "_" && after_digit then int_digits acc false s'
      else None
  end.

Definition int_literal (s : string) : option Z :=
  match s with
  | String "+" s' => int_digits 0 false s'
  | String "-" s' => option_map Z.opp (int_digits 0 false s')
  | _ => int_digits 0 false s
  end.

(** [int(s)] for a [str], base 10. *)
Definition py_int (s : string) : result Z :=
  match int_literal (rskip int_blank (lskip int_blank s)) with
  | Some z => ret z
  | None => raise (InvalidLiteral s)
  end.

(** ** [time_stamp_to_seconds] *)

Definition time_stamp_to_seconds (time_stamp : string) : result Z :=
  parts <- map_result py_int (split ":" time_stamp) ;;
  match parts with
  | [p0] => ret p0
  | [p0; p1] => ret (p0 * 60 + p1)
  | [p0; p1; p2] => ret (p0 * 3600 + p1 * 60 + p2)
  | [p0; p1; p2; p3] => ret (p0 * 86400 + p1 * 3600 + p2 * 60 + p3)
  | _ => raise (UnsupportedTimestampFormat time_stamp)
  end.

(** ** [TrackInfo] *)

Record TrackInfo : Type := mkTrackInfo {
  name : string;
  track_number : Z;
  track_start : Z;
  track_end : option Z;
  album : string;
  artist : option string;
  composer : option string;
  total_discs : option Z;
  disc_number : option Z
}.

(** [TrackInfo.set_track_end]: the one method that changes a descriptor. *)
Definition set_track_end (self : TrackInfo) (time_end : option Z) : TrackInfo :=
  {| name := name self;
     track_number := track_number self;
     track_start := track_start self;
     track_end := time_end;
     album := album self;
     artist := artist self;
     composer := composer self;
     total_discs := total_discs self;
     disc_number := disc_number self |}.

(** ** [process_conf] *)

(** [match.group(n)] used as a string. *)
Definition group_str (m : captures) (n : nat) : result string :=
  match group m n with
  | Some v => ret v
  | None => raise (NoneGroup n)
  end.

(** Lines 157-169: the two searches and the choice of the capture groups.
    The result is [(track_num, track_name, time_stamp_str)]. *)
Definition extract_fields (line_number : Z) (line : string)
  : result (Z * string * string) :=
  let match_ :=
    match re_search CONFIG_PATTERN line with
    | Some m => Some m
    | None => re_search ALT_CONFIG_PATTERN line
    end in
  match match_ with
  | None => raise (LineParseFailure line_number line)
  | Some m =>
      match re_search CONFIG_PATTERN line with
      | Some _ =>
          g1 <- group_str m 1 ;;
          track_num <- py_int g1 ;;
          track_name <- group_str m 3 ;;
          time_stamp_str <- group_str m 5 ;;
          ret (track_num, track_name, time_stamp_str)
      | None =>
          track_name <- group_str m 4 ;;
          time_stamp_str <- group_str m 1 ;;
          ret (line_number, track_name, time_stamp_str)
      end
  end.

(** The local list [tracks], with the calls of [set_track_end] made so far:
    each entry of [writes] is the index in [tracks] of the descriptor the
    method was called on and the argument of the call, oldest first. *)
Record store : Type := mkStore {
  tracks : list TrackInfo;
  writes : list (nat * option Z)
}.

Definition empty_store : store := {| tracks := []; writes := [] |}.

(** [l[-1] = f(l[-1])] on a non-empty list. *)
Fixpoint update_last {A : Type} (f : A -> A) (l : list A) : list A :=
  match l with
  | [] => []
  | [a] => [f a]
  | a :: l' => a :: update_last f l'
  end.

(** [if tracks: tracks[-1].set_track_end(time_end)] *)
Definition close_last (time_end : option Z) (st : store) : store :=
  match tracks st with
  | [] => st
  | _ :: _ =>
      {| tracks := update_last (fun t => set_track_end t time_end) (tracks st);
         writes := (writes st ++ [(pred (length (tracks st)), time_end)])%list |}
  end.

(** [tracks.append(track)] *)
Definition append_track (track : TrackInfo) (st : store) : store :=
  {| tracks := (tracks st ++ [track])%list; writes := writes st |}.

Section Sequencer.

Variable album_ : string.
Variable duration : option Z.
Variable composer_ : option string.
Variable total_discs_ disc_number_ : option Z.
Variable artist_ : option string.

(** The body of the [for] loop, lines 153-187. *)
Definition loop_body (line_number : Z) (line : string) (st : store)
  : result store :=
  let line := strip line in
  if is_empty line then ret st
  else
    '(track_num, track_name, time_stamp_str) <-
       extract_fields line_number line ;;
    time_stamp_sec <- time_stamp_to_seconds time_stamp_str ;;
    let st := close_last (Some time_stamp_sec) st in
    let track :=
      {| name := strip track_name;
         album := album_;
         track_number := track_num;
         track_start := time_stamp_sec;
         track_end := None;
         composer := composer_;
         total_discs := total_discs_;
         disc_number := disc_number_;
         artist := artist_ |} in
    ret (append_track track st).

(** [for line_number, line in enumerate(f, line_number)] *)
Fixpoint loop (line_number : Z) (lines : list string) (st : store)
  : result store :=
  match lines with
  | [] => ret st
  | line :: rest =>
      st' <- loop_body line_number line st ;;
      loop (line_number + 1) rest st'
  end.

(** Lines 150-192, with the calls of [set_track_end] kept. *)
Definition run_conf (lines : list string) : result store :=
  st <- loop 1 lines empty_store ;;
  ret (close_last duration st).

End Sequencer.

(** [process_conf].  [file] stands for the file at [file_path]: [None] when
    [os.path.isfile(file_path)] is false, and else the lines that iterating
    over the open file yields, each with its line terminator. *)
Definition process_conf (file_path : string) (file : option (list string))
  (album : string) (duration : option Z) (composer : option string)
  (total_discs disc_number : option Z) (artist : option string)
  : result (list TrackInfo) :=
  match file with
  | None => raise (FileNotFoundError file_path)
  | Some lines =>
      st <- run_conf album duration composer total_discs disc_number artist
              lines ;;
      ret (tracks st)
  end.


(** ** Vocabulary of the statements *)

(** What one line contributes: track number, title as captured, start. *)
Definition entry : Type := (Z * string * Z)%type.

Definition entry_start (e : entry) : Z := snd e.

(** Lines 157-171 on one stripped, non-empty line. *)
Definition parse_line (line_number : Z) (line : string) : result entry :=
  '(track_num, track_name, time_stamp_str) <-
     extract_fields line_number line ;;
  time_stamp_sec <- time_stamp_to_seconds time_stamp_str ;;
  ret (track_num, track_name, time_stamp_sec).

(** A line the loop skips. *)
Definition blank (line : string) : bool := is_empty (strip line).

Definition nonblank_count (lines : list string) : nat :=
  length (filter (fun line => negb (blank line)) lines).

(** The entries of the lines of a file, numbered from [line_number]. *)
Fixpoint parse_all (line_number : Z) (lines : list string)
  : result (list entry) :=
  match lines with
  | [] => ret []
  | line :: rest =>
      if blank line then parse_all (line_number + 1) rest
      else
        e <- parse_line line_number (strip line) ;;
        es <- parse_all (line_number + 1) rest ;;
        ret (e :: es)
  end.

(** A line that is skipped or that parses and converts. *)
Definition line_ok (line_number : Z) (line : string) : Prop :=
  blank line = true \/ exists e, parse_line line_number (strip line) = inr e.

(** Every line of the file is skipped or parses and converts. *)
Definition config_ok (lines : list string) : Prop :=
  forall i line, nth_error lines i = Some line -> line_ok (Z.of_nat (S i)) line.

Section Resolve.

Variable album_ : string.
Variable composer_ : option string.
Variable total_discs_ disc_number_ : option Z.
Variable artist_ : option string.

(** The descriptor as line 176 constructs it. *)
Definition new_track (e : entry) : TrackInfo :=
  let '(track_num, track_name, time_stamp_sec) := e in
  {| name := strip track_name;
     track_number := track_num;
     track_start := time_stamp_sec;
     track_end := None;
     album := album_;
     artist := artist_;
     composer := composer_;
     total_discs := total_discs_;
     disc_number := disc_number_ |}.

(** Lines 173-187 for one entry: close the previous track, open the next. *)
Definition step (st : store) (e : entry) : store :=
  append_track (new_track e) (close_last (Some (entry_start e)) st).

(** The two-phase build of the design notes: every track ends where the
    next one starts, the last one at [final]. *)
Fixpoint resolve_boundaries (es : list entry) (final : option Z)
  : list TrackInfo :=
  match es with
  | [] => []
  | e :: rest =>
      set_track_end (new_track e)
        match rest with
        | [] => final
        | e' :: _ => Some (entry_start e')
        end
      :: resolve_boundaries rest final
  end.

End Resolve.

(** Equal in every field but [track_end]. *)
Definition same_but_track_end (t t' : TrackInfo) : Prop :=
  name t = name t' /\ track_number t = track_number t' /\
  track_start t = track_start t' /\ album t = album t' /\
  artist t = artist t' /\ composer t = composer t' /\
  total_discs t = total_discs t' /\ disc_number t = disc_number t'.

(** The arguments of the calls of [set_track_end] on the descriptor at
    index [i], oldest first. *)
Definition writes_to (i : nat) (ws : list (nat * option Z)) : list (option Z) :=
  map snd (filter (fun w => Nat.eqb (fst w) i) ws).

(** Exactly the last descriptor of a non-empty list is open. *)
Definition one_open (l : list TrackInfo) : Prop :=
  exists closed t,
    l = (closed ++ [t])%list /\ track_end t = None /\
    Forall (fun t' => track_end t' <> None) closed.

(** Every descriptor ends where the next one starts. *)
Definition contiguous (l : list TrackInfo) : Prop :=
  forall i t t',
    nth_error l i = Some t -> nth_error l (S i) = Some t' ->
    track_end t = Some (track_start t').

(** One call of [set_track_end] for each descriptor of [l], from index [k]
    on, with the end the descriptor holds. *)
Fixpoint closing_writes (k : nat) (l : list TrackInfo)
  : list (nat * option Z) :=
  match l with
  | [] => []
  | t :: l' => (k, track_end t) :: closing_writes (S k) l'
  end.

(** Between two rounds of the loop every descriptor but the last has been
    closed by one call, and the last by none. *)
Definition writes_inv (st : store) : Prop :=
  writes st = closing_writes 0 (removelast (tracks st)).

(** A group that [int()] accepts. *)
Definition int_ok (g : string) : Prop := exists z, py_int g = inr z.

(** Whether the first character of [s] satisfies [p]; false on "". *)
Definition first_is (p : ascii -> bool) (s : string) : bool :=
  match s with
  | String a _ => p a
  | EmptyString => false
  end.

(** Whether [s] has a digit at index [i]. *)
Definition digit_at (i : nat) (s : string) : bool :=
  match String.get i s with
  | Some a => isdigit a
  | None => false
  end.

(** A run of 2-digit pairs without colons; [is_digit_pairs] on at least
    one pair. *)
Fixpoint digit_pairs (s : string) : bool :=
  match s with
  | EmptyString => true
  | String a (String b s') => isdigit a && isdigit b && digit_pairs s'
  | String _ EmptyString => false
  end.

Definition is_digit_pairs (s : string) : bool :=
  negb (is_empty s) && digit_pairs s.

(** The captures of group [n] that the rounds over such a run leave. *)
Fixpoint pair_captures (n : nat) (s : string) (c : captures) : captures :=
  match s with
  | String a (String b s') =>
      pair_captures n s' ((n, String a (String b EmptyString)) :: c)
  | _ => c
  end.

(** What follows a timestamp and ends it: nothing, or a character that is
    neither a digit nor a colon. *)
Definition ends_timestamp (rest : string) : bool :=
  negb (first_is (fun a => isdigit a || Ascii.eqb a ":") rest).

(** The separators [" -"] and [" |"] followed by the space. *)
Definition separator (b : ascii) : string :=
  String " " (String b (String " " EmptyString)).

Definition is_bar (b : ascii) : bool := in_charset (OneOf ["-"; "|"]%char) b.

(** [s'] is what is left of [s] behind some prefix. *)
Definition suffix_of (s' s : string) : Prop := exists p, s = (p ++ s')%string.

(** Whether [s] shows a space right before a digit. *)
Fixpoint space_digit (s : string) : bool :=
  match s with
  | EmptyString => false
  | String a s' => (Ascii.eqb a " " && first_is isdigit s') || space_digit s'
  end.

(** The rest of the pattern [k] accepts some suffix of the subject [s] with
    the match [m]. *)
Definition reaches (m : captures) (k : cont) (s : string) : Prop :=
  exists s' c', suffix_of s' s /\ k s' c' = Some m.

(** The numbers of the groups of [r]. *)
Fixpoint groups_of (r : regex) : list nat :=
  match r with
  | Chr _ | EndAnchor => []
  | Cat r1 r2 => groups_of r1 ++ groups_of r2
  | Opt r1 | Plus r1 | LazyStar r1 => groups_of r1
  | Group n r1 => n :: groups_of r1
  end.

(** The groups that take part in every match of [r]. *)
Fixpoint sure_groups (r : regex) : list nat :=
  match r with
  | Chr _ | EndAnchor | Opt _ | LazyStar _ => []
  | Cat r1 r2 => sure_groups r1 ++ sure_groups r2
  | Plus r1 => sure_groups r1
  | Group n r1 => n :: sure_groups r1
  end.

(** From [c] to [c']: the groups outside [touched] keep their text, the
    groups of [set] have one, and no group loses its text. *)
Definition keeps (touched set : list nat) (c c' : captures) : Prop :=
  (forall n, ~ In n touched -> group c' n = group c n) /\
  (forall n, In n set -> group c' n <> None) /\
  (forall n, group c n <> None -> group c' n <> None).

(** The rest of the pattern [k] accepts with the match [m], on captures
    that [keeps] relates to [c]. *)
Definition accepts (m : captures) (touched set : list nat) (k : cont)
  (c : captures) : Prop :=
  exists s' c', k s' c' = Some m /\ keeps touched set c c'.

(** The config of the end-to-end scenario. *)
Definition example_lines : list string :=
  ["1 - Intro - 00:00"; "2 - Main - 03:15"; "3 - Outro - 10:40"].

(** ** [process_tracks] and [main] *)

(** [re.sub(cls, "", s)] for a pattern [cls] that is one character class:
    every character of the class is dropped. *)
Fixpoint re_sub_class (cs : charset) (s : string) : string :=
  match s with
  | EmptyString => EmptyString
  | String a s' =>
      if in_charset cs a then re_sub_class cs s'
      else String a (re_sub_class cs s')
  end.

(** The class of line 115: backslash, slash, star, question mark, colon,
    double quote, the angle brackets and the bar. *)
Definition FORBIDDEN : charset :=
  OneOf ["\"; "/"; "*"; "?"; ":"; "034"; "<"; ">"; "|"]%char.

(** Line 115: the file name of a track, before the extension. *)
Definition sanitized_track_name (name : string) : string :=
  re_sub_class FORBIDDEN name.

(** [if x:] on an optional string and on an optional integer: [None], the
    empty string and 0 are false. *)
Definition truthy_str (x : option string) : bool :=
  match x with
  | Some v => negb (is_empty v)
  | None => false
  end.

Definition truthy_int (x : option Z) : bool :=
  match x with
  | Some v => negb (v =? 0)
  | None => false
  end.

(** A value assigned to a tag. *)
Inductive tag_value : Type :=
| TagStr (v : string)
| TagInt (v : Z).

(** [f[key] = value] when [x] is true in the sense of [if x:]. *)
Definition tag_if_str (key : string) (x : option string)
  : list (string * tag_value) :=
  match x with
  | Some v => if is_empty v then [] else [(key, TagStr v)]
  | None => []
  end.

Definition tag_if_int (key : string) (x : option Z)
  : list (string * tag_value) :=
  match x with
  | Some v => if v =? 0 then [] else [(key, TagInt v)]
  | None => []
  end.

(** Lines 121-133: the item assignments on the tag file of one track, in
    the order of the source. *)
Definition set_tags (track : TrackInfo) : list (string * tag_value) :=
  ([("album", TagStr (album track))]
   ++ tag_if_str "composer" (composer track)
   ++ tag_if_int "discnumber" (disc_number track)
   ++ tag_if_int "totaldiscs" (total_discs track)
   ++ [("tracknumber", TagInt (track_number track));
       ("tracktitle", TagStr (name track))]
   ++ tag_if_str "artist" (artist track))%list.

(** What one round of the loop of [process_tracks] does to the outside:
    the two arguments of [os.path.join], the bounds of the slice taken from
    the recording, in milliseconds, and the tags assigned before the file
    is saved. *)
Record exported : Type := mkExported {
  out_dir : string;
  out_file : string;
  seg_start : Z;
  seg_end : Z;
  out_tags : list (string * tag_value)
}.

(** Lines 110-133 for one track; [audio_len] is [len(audio)]. *)
Definition export_track (audio_len : Z) (output_path : string)
  (track : TrackInfo) : exported :=
  let start_ms := track_start track * 1000 in
  let end_ms :=
    match track_end track with
    | Some e => e * 1000
    | None => audio_len
    end in
  {| out_dir := output_path;
     out_file := (sanitized_track_name (name track) ++ ".mp3")%string;
     seg_start := start_ms;
     seg_end := end_ms;
     out_tags := set_tags track |}.

(** [process_tracks]: the exports, in the order of the tracks.  The lines
    printed on the console are left out. *)
Definition process_tracks (tracks : list TrackInfo) (audio_len : Z)
  (output_path : string) : list exported :=
  map (export_track audio_len output_path) tracks.

(** The parsed command line. *)
Record Args : Type := mkArgs {
  args_file : string;
  args_config : string;
  args_output : option string;
  args_album : option string;
  args_artist : option string;
  args_composer : option string;
  args_total_discs : option Z;
  args_disc : option Z
}.



Section Main.

(** [os.path.splitext(os.path.basename(p))[0]] and [os.path.dirname(p)]. *)
Variable file_stem : string -> string.
Variable dirname : string -> string.


(** Line 99: the directory of the exports. *)
Definition output_path (args : Args) : string :=
  match args_output args with
  | Some v => if is_empty v then dirname (args_file args) else v
  | None => dirname (args_file args)
  end.


End Main.

(** The texts of [(\d{2}\:{0,1})+]: 2-digit pairs, each with or without a
    colon behind it. *)
Inductive timestamp_token : string -> Prop :=
| token_pair (a b : ascii) :
    isdigit a = true -> isdigit b = true ->
    timestamp_token (String a (String b EmptyString))
| token_pair_colon (a b : ascii) :
    isdigit a = true -> isdigit b = true ->
    timestamp_token (String a (String b (String ":" EmptyString)))
| token_more (a b : ascii) (w : string) :
    isdigit a = true -> isdigit b = true -> timestamp_token w ->
    timestamp_token (String a (String b w))
| token_more_colon (a b : ascii) (w : string) :
    isdigit a = true -> isdigit b = true -> timestamp_token w ->
    timestamp_token (String a (String b (String ":" w))).

(** Whether [s] ends with the character [x]. *)
Fixpoint ends_with (x : ascii) (s : string) : bool :=
  match s with
  | EmptyString => false
  | String a EmptyString => Ascii.eqb a x
  | String _ s' => ends_with x s'
  end.

(** The value the assignments [tags] leave under [key]. *)
Fixpoint tag_of (key : string) (tags : list (string * tag_value))
  : option tag_value :=
  match tags with
  | [] => None
  | (k, v) :: rest =>
      match tag_of key rest with
      | Some v' => Some v'
      | None => if String.eqb k key then Some v else None
      end
  end.

(** What [( [-\|]){0,1}] takes: nothing, or a space and a bar. *)
Definition optional_separator (s : string) : Prop :=
  s = EmptyString \/
  exists b, is_bar b = true /\ s = String " " (String b EmptyString).



Definition example_track : TrackInfo :=
  {| name := "AC/DC: Live?"; track_number := 1; track_start := 0;
     track_end := Some 5; album := "Album"; artist := None;
     composer := None; total_discs := None; disc_number := None |}.

(** * Proofs *)

(** ** The error monad *)

Lemma bind_inr {A B : Type} (m : result A) (f : A -> result B) (b : B) :
  bind m f = inr b -> exists a, m = inr a /\ f a = inr b.
Proof.
  destruct m as [e | a]; simpl; intros H; [discriminate | eauto].
Qed.

Lemma bind_inl {A B : Type} (m : result A) (f : A -> result B) (e : error) :
  bind m f = inl e -> m = inl e \/ exists a, m = inr a /\ f a = inl e.
Proof.
  destruct m as [e' | a]; simpl; intros H;
    [left; injection H as ->; reflexivity | eauto].
Qed.

Lemma bind_ret {A B : Type} (a : A) (f : A -> result B) :
  bind (inr a) f = f a.
Proof. reflexivity. Qed.

(** ** The loop as a fold over the entries *)

Section SequencerFacts.

Variable album_ : string.
Variable composer_ : option string.
Variable total_discs_ disc_number_ : option Z.
Variable artist_ : option string.

Local Abbreviation loop_body' := (loop_body album_ composer_ total_discs_ disc_number_ artist_).
Local Abbreviation loop' := (loop album_ composer_ total_discs_ disc_number_ artist_).
Local Abbreviation step' := (step album_ composer_ total_discs_ disc_number_ artist_).
Local Abbreviation new_track' := (new_track album_ composer_ total_discs_ disc_number_ artist_).
Local Abbreviation resolve' := (resolve_boundaries album_ composer_ total_discs_ disc_number_ artist_).

Lemma loop_body_step (n : Z) (line : string) (st : store) :
  loop_body' n line st =
  if blank line then ret st
  else e <- parse_line n (strip line) ;; ret (step' st e).
Proof.
  unfold loop_body, blank, parse_line.
  destruct (is_empty (strip line)); [reflexivity |].
  destruct (extract_fields n (strip line)) as [e | [[num nm] ts]]; simpl;
    [reflexivity |].
  destruct (time_stamp_to_seconds ts); reflexivity.
Qed.

Lemma loop_parse_all (lines : list string) :
  forall n st,
    loop' n lines st = es <- parse_all n lines ;; ret (fold_left step' es st).
Proof.
  induction lines as [| line rest IH]; intros n st; simpl; [reflexivity |].
  rewrite loop_body_step.
  destruct (blank line); simpl; [apply IH |].
  destruct (parse_line n (strip line)) as [err | e]; simpl; [reflexivity |].
  rewrite IH.
  destruct (parse_all (n + 1) rest); reflexivity.
Qed.


Lemma set_track_end_new_track (e : entry) :
  set_track_end (new_track' e) None = new_track' e.
Proof. destruct e as [[num nm] sec]; reflexivity. Qed.

Lemma update_last_snoc {A : Type} (f : A -> A) (l : list A) (a : A) :
  update_last f (l ++ [a])%list = (l ++ [f a])%list.
Proof.
  induction l as [| b l IH]; simpl; [reflexivity |].
  rewrite IH. destruct l; reflexivity.
Qed.


Lemma tracks_close_last (v : option Z) (st : store) :
  tracks (close_last v st) =
  update_last (fun t => set_track_end t v) (tracks st).
Proof.
  unfold close_last. destruct (tracks st) eqn:E; simpl; [exact E | reflexivity].
Qed.

Lemma tracks_step (st : store) (e : entry) :
  tracks (step' st e) =
  (update_last (fun t => set_track_end t (Some (entry_start e))) (tracks st)
     ++ [new_track' e])%list.
Proof. unfold step, append_track; simpl. now rewrite tracks_close_last. Qed.

(** Appending an entry closes the track that was last. *)
Lemma resolve_snoc (es : list entry) (e : entry) (final final' : option Z) :
  resolve' (es ++ [e])%list final =
  (update_last (fun t => set_track_end t (Some (entry_start e)))
     (resolve' es final')
   ++ [set_track_end (new_track' e) final])%list.
Proof.
  induction es as [| e0 rest IH]; simpl; [reflexivity |].
  rewrite IH. destruct rest as [| e1 r]; simpl; reflexivity.
Qed.

Lemma resolve_final (es : list entry) (final final' : option Z) :
  update_last (fun t => set_track_end t final) (resolve' es final') =
  resolve' es final.
Proof.
  induction es as [| e0 rest IH]; simpl; [reflexivity |].
  destruct rest as [| e1 r]; [reflexivity |].
  simpl in *. now rewrite IH.
Qed.

Lemma tracks_fold (es : list entry) :
  forall st es0,
    tracks st = resolve' es0 None ->
    tracks (fold_left step' es st) = resolve' (es0 ++ es)%list None.
Proof.
  induction es as [| e es IH]; intros st es0 H; simpl.
  - now rewrite app_nil_r.
  - rewrite (IH _ (es0 ++ [e])%list).
    + now rewrite <- app_assoc.
    + rewrite tracks_step, H, (resolve_snoc es0 e None None).
      now rewrite set_track_end_new_track.
Qed.

Lemma resolve_length (es : list entry) (final : option Z) :
  length (resolve' es final) = length es.
Proof. induction es as [| e es IH]; simpl; [reflexivity | now rewrite IH]. Qed.

(** The descriptor at index [i]: built from entry [i], ended by entry
    [i + 1] or by [final]. *)
Lemma resolve_nth (es : list entry) (final : option Z) :
  forall i,
    nth_error (resolve' es final) i =
    match nth_error es i with
    | Some e =>
        Some (set_track_end (new_track' e)
                match nth_error es (S i) with
                | Some e' => Some (entry_start e')
                | None => final
                end)
    | None => None
    end.
Proof.
  induction es as [| e es IH]; intros i.
  - destruct i; reflexivity.
  - destruct i as [| i]; simpl.
    + destruct es; reflexivity.
    + apply IH.
Qed.

(** [process_conf] is the two-phase build over the parsed entries. *)
Lemma process_conf_resolve (file_path : string) (lines : list string)
  (duration : option Z) :
  process_conf file_path (Some lines) album_ duration composer_
    total_discs_ disc_number_ artist_ =
  es <- parse_all 1 lines ;; ret (resolve' es duration).
Proof.
  unfold process_conf, run_conf. rewrite loop_parse_all.
  destruct (parse_all 1 lines) as [err | es]; simpl; [reflexivity |].
  rewrite tracks_close_last, (tracks_fold es empty_store []); [| reflexivity].
  simpl. now rewrite resolve_final.
Qed.

End SequencerFacts.

(** ** Lines and entries *)

Lemma parse_all_cons (n : Z) (line : string) (rest : list string) :
  parse_all n (line :: rest) =
  if blank line then parse_all (n + 1) rest
  else
    e <- parse_line n (strip line) ;;
    es <- parse_all (n + 1) rest ;;
    ret (e :: es).
Proof. reflexivity. Qed.

Lemma parse_all_app (l1 l2 : list string) :
  forall n,
    parse_all n (l1 ++ l2)%list =
    es1 <- parse_all n l1 ;;
    es2 <- parse_all (n + Z.of_nat (length l1)) l2 ;;
    ret (es1 ++ es2)%list.
Proof.
  induction l1 as [| line rest IH]; intros n; simpl.
  - rewrite Z.add_0_r. destruct (parse_all n l2); reflexivity.
  - replace (n + Z.pos (Pos.of_succ_nat (length rest)))
      with (n + 1 + Z.of_nat (length rest)) by lia.
    destruct (blank line); [apply IH |].
    destruct (parse_line n (strip line)) as [err | e]; simpl; [reflexivity |].
    rewrite IH.
    destruct (parse_all (n + 1) rest) as [err | es1]; simpl; [reflexivity |].
    destruct (parse_all _ l2); reflexivity.
Qed.

Lemma parse_all_length (lines : list string) :
  forall n es, parse_all n lines = inr es -> length es = nonblank_count lines.
Proof.
  unfold nonblank_count.
  induction lines as [| line rest IH]; intros n es H; simpl in *.
  - injection H as <-. reflexivity.
  - destruct (blank line); simpl; [eapply IH; eassumption |].
    apply bind_inr in H as [e [_ H]].
    apply bind_inr in H as [es' [H' H]].
    injection H as <-. simpl. f_equal. eapply IH; eassumption.
Qed.

Lemma parse_all_blank (lines : list string) :
  forall n, Forall (fun line => blank line = true) lines -> parse_all n lines = inr [].
Proof.
  induction lines as [| line rest IH]; intros n H; simpl; [reflexivity |].
  inversion H as [| ? ? Hb Hr]; subst. rewrite Hb. now apply IH.
Qed.

Lemma parse_all_total (lines : list string) :
  forall n,
    (forall i line, nth_error lines i = Some line -> line_ok (n + Z.of_nat i) line) ->
    exists es, parse_all n lines = inr es.
Proof.
  induction lines as [| line rest IH]; intros n H; simpl; [eauto |].
  destruct (IH (n + 1)) as [es Hes].
  { intros i l Hi. replace (n + 1 + Z.of_nat i) with (n + Z.of_nat (S i)) by lia.
    now apply H. }
  destruct (blank line) eqn:Hb; [eauto |].
  destruct (H 0%nat line eq_refl) as [Hb' | [e He]]; [congruence |].
  rewrite Z.add_0_r in He. rewrite He, Hes. simpl. eauto.
Qed.

(** The entry of a non-blank line sits at the rank of the line among the
    non-blank lines. *)
Lemma parse_all_nth (lines : list string) (i : nat) (line : string) :
  forall n es,
    nth_error lines i = Some line -> blank line = false ->
    parse_all n lines = inr es ->
    exists e,
      parse_line (n + Z.of_nat i) (strip line) = inr e /\
      nth_error es (nonblank_count (firstn i lines)) = Some e.
Proof.
  intros n es Hi Hb H.
  destruct (nth_error_split lines i Hi) as [l1 [l2 [-> Hlen]]].
  rewrite parse_all_app in H.
  apply bind_inr in H as [es1 [H1 H]].
  apply bind_inr in H as [es2 [H2 H]]. injection H as <-.
  simpl in H2. rewrite Hb in H2.
  apply bind_inr in H2 as [e [He H2]].
  apply bind_inr in H2 as [es3 [_ H2]]. injection H2 as <-.
  exists e. rewrite <- Hlen at 1. split; [exact He |].
  rewrite <- Hlen, firstn_app, Nat.sub_diag, firstn_all. simpl.
  rewrite app_nil_r, <- (parse_all_length _ _ _ H1).
  rewrite nth_error_app2, Nat.sub_diag by lia. reflexivity.
Qed.

(** The first line that fails decides the error. *)
Lemma parse_all_first_error (lines : list string) (i : nat) (line : string)
  (err : error) :
  forall n,
    nth_error lines i = Some line -> blank line = false ->
    parse_line (n + Z.of_nat i) (strip line) = inl err ->
    (forall j l, (j < i)%nat -> nth_error lines j = Some l ->
                 line_ok (n + Z.of_nat j) l) ->
    parse_all n lines = inl err.
Proof.
  intros n Hi Hb He Hok.
  destruct (nth_error_split lines i Hi) as [l1 [l2 [-> Hlen]]].
  rewrite parse_all_app.
  destruct (parse_all_total l1 n) as [es1 ->].
  { intros j l Hj. apply Hok.
    - rewrite <- Hlen. apply nth_error_Some. congruence.
    - rewrite nth_error_app1; [exact Hj |]. apply nth_error_Some. congruence. }
  simpl. rewrite Hb, Hlen, He. reflexivity.
Qed.

(** A line that fails makes the whole parse fail. *)
Lemma parse_all_fails (lines : list string) (i : nat) (line : string)
  (err : error) :
  forall n,
    nth_error lines i = Some line -> blank line = false ->
    parse_line (n + Z.of_nat i) (strip line) = inl err ->
    exists e, parse_all n lines = inl e.
Proof.
  intros n Hi Hb He.
  destruct (nth_error_split lines i Hi) as [l1 [l2 [-> Hlen]]].
  rewrite parse_all_app.
  destruct (parse_all n l1) as [e | es1]; [exists e; reflexivity |].
  rewrite bind_ret, parse_all_cons, Hb, Hlen, He. exists err. reflexivity.
Qed.

Lemma track_start_resolved (album_ : string) (composer_ : option string)
  (total_discs_ disc_number_ : option Z) (artist_ : option string)
  (e : entry) (v : option Z) :
  track_start
    (set_track_end
       (new_track album_ composer_ total_discs_ disc_number_ artist_ e) v) =
  entry_start e.
Proof. destruct e as [[num nm] sec]; reflexivity. Qed.

Lemma track_number_resolved (album_ : string) (composer_ : option string)
  (total_discs_ disc_number_ : option Z) (artist_ : option string)
  (e : entry) (v : option Z) :
  track_number
    (set_track_end
       (new_track album_ composer_ total_discs_ disc_number_ artist_ e) v) =
  fst (fst e).
Proof. destruct e as [[num nm] sec]; reflexivity. Qed.

Lemma nonblank_count_pos (lines : list string) :
  (exists line, In line lines /\ blank line = false) ->
  (0 < nonblank_count lines)%nat.
Proof.
  intros [line [Hin Hb]]. unfold nonblank_count.
  assert (H : In line (filter (fun l => negb (blank l)) lines)).
  { apply filter_In. split; [exact Hin | now rewrite Hb]. }
  destruct (filter _ lines); [contradiction | simpl; lia].
Qed.

Lemma nonblank_count_all (lines : list string) :
  Forall (fun line => blank line = false) lines ->
  nonblank_count lines = length lines.
Proof.
  unfold nonblank_count. induction 1 as [| line rest Hb _ IH]; simpl;
    [reflexivity |].
  rewrite Hb. simpl. now rewrite IH.
Qed.

Lemma config_ok_from_one (lines : list string) :
  config_ok lines ->
  forall i line, nth_error lines i = Some line -> line_ok (1 + Z.of_nat i) line.
Proof.
  intros H i line Hi. replace (1 + Z.of_nat i) with (Z.of_nat (S i)) by lia.
  now apply H.
Qed.

(** ** The claims on the sequencer *)

Section Claims.

Variable file_path : string.
Variable album_ : string.
Variable composer_ : option string.
Variable total_discs_ disc_number_ : option Z.
Variable artist_ : option string.

(** C1 (boundary completeness).  When every non-empty line of the config
    parses and converts, at least one line is non-empty and a total
    duration [d] is supplied, [process_conf] returns a non-empty sequence
    in which every descriptor has a [track_end], each descriptor ends
    where the next one starts, and the last one ends at [d]. *)
Theorem C1_boundary_completeness (lines : list string) (d : Z) :
  config_ok lines ->
  (exists line, In line lines /\ blank line = false) ->
  exists tracks,
    process_conf file_path (Some lines) album_ (Some d) composer_
      total_discs_ disc_number_ artist_ = inr tracks /\
    tracks <> [] /\
    Forall (fun t => track_end t <> None) tracks /\
    contiguous tracks /\
    exists t, nth_error tracks (pred (length tracks)) = Some t /\
              track_end t = Some d.
Proof.
  intros Hok Hne.
  destruct (parse_all_total lines 1 (config_ok_from_one lines Hok)) as [es Hes].
  pose proof (parse_all_length _ _ _ Hes) as Hlen.
  apply nonblank_count_pos in Hne. rewrite <- Hlen in Hne.
  eexists. rewrite process_conf_resolve, Hes. simpl.
  split; [reflexivity |]. repeat split.
  - destruct es; [simpl in Hne; lia | discriminate].
  - apply Forall_forall. intros t Hin.
    apply In_nth_error in Hin as [i Hi].
    rewrite resolve_nth in Hi.
    destruct (nth_error es i); [| discriminate].
    destruct (nth_error es (S i)); injection Hi as <-; discriminate.
  - intros i t t' Hi Hi'. rewrite resolve_nth in Hi, Hi'.
    destruct (nth_error es i) as [e |]; [| discriminate].
    destruct (nth_error es (S i)) as [e' |]; [| discriminate].
    injection Hi as <-. injection Hi' as <-.
    now rewrite track_start_resolved.
  - rewrite resolve_length, resolve_nth.
    destruct (nth_error es (pred (length es))) as [e |] eqn:E.
    + eexists. split; [reflexivity |].
      replace (S (pred (length es))) with (length es) by lia.
      rewrite (proj2 (nth_error_None es (length es))) by lia. reflexivity.
    + apply nth_error_None in E. lia.
Qed.

(** C3, amended.  The descriptor of a line read under the alternate
    syntax carries the 1-based position of the line among all the lines
    of the file, blank ones counted; when no line before it is blank this
    is its position among the non-empty lines. *)
Theorem C3_alternate_track_number (lines : list string)
  (duration : option Z) (i : nat) (line : string) (tracks : list TrackInfo) :
  nth_error lines i = Some line ->
  blank line = false ->
  re_search CONFIG_PATTERN (strip line) = None ->
  process_conf file_path (Some lines) album_ duration composer_
    total_discs_ disc_number_ artist_ = inr tracks ->
  (exists t,
     nth_error tracks (nonblank_count (firstn i lines)) = Some t /\
     track_number t = Z.of_nat (S i)) /\
  (Forall (fun l => blank l = false) (firstn i lines) ->
   nonblank_count (firstn i lines) = i).
Proof.
  intros Hi Hb Hprimary H.
  rewrite process_conf_resolve in H.
  apply bind_inr in H as [es [Hes H]]. injection H as <-.
  destruct (parse_all_nth _ _ _ _ _ Hi Hb Hes) as [e [He Hnth]].
  remember (1 + Z.of_nat i) as n eqn:Hn.
  split.
  - rewrite resolve_nth, Hnth. eexists. split; [reflexivity |].
    rewrite track_number_resolved.
    unfold parse_line, extract_fields in He. rewrite Hprimary in He.
    destruct (re_search ALT_CONFIG_PATTERN (strip line)) as [m |];
      [| discriminate].
    apply bind_inr in He as [[[num nm] ts] [Hx He]].
    apply bind_inr in He as [sec [_ He]]. injection He as <-.
    apply bind_inr in Hx as [nm' [_ Hx]].
    apply bind_inr in Hx as [ts' [_ Hx]]. injection Hx as <- _ _.
    cbn [fst]. lia.
  - intros Hall. rewrite (nonblank_count_all _ Hall).
    apply firstn_length_le. apply Nat.lt_le_incl, nth_error_Some. congruence.
Qed.

(** C4, amended.  When a non-empty line matches neither syntax, parsing
    fails and no descriptor sequence is returned.  When moreover every line
    before it is blank or parses and converts, the failure is that of this
    line: it carries the 1-based number of the line in the file and the
    text of the line stripped of the blanks around it. *)
Theorem C4_failure_locality (lines : list string) (duration : option Z)
  (i : nat) (line : string) :
  nth_error lines i = Some line ->
  blank line = false ->
  re_search CONFIG_PATTERN (strip line) = None ->
  re_search ALT_CONFIG_PATTERN (strip line) = None ->
  (exists e,
     process_conf file_path (Some lines) album_ duration composer_
       total_discs_ disc_number_ artist_ = inl e) /\
  ((forall j l, (j < i)%nat -> nth_error lines j = Some l ->
                line_ok (Z.of_nat (S j)) l) ->
   process_conf file_path (Some lines) album_ duration composer_
     total_discs_ disc_number_ artist_ =
   inl (LineParseFailure (Z.of_nat (S i)) (strip line))).
Proof.
  intros Hi Hb Hp Ha.
  assert (He : parse_line (1 + Z.of_nat i) (strip line) =
               inl (LineParseFailure (Z.of_nat (S i)) (strip line))).
  { replace (1 + Z.of_nat i) with (Z.of_nat (S i)) by lia.
    unfold parse_line, extract_fields. rewrite Hp, Ha. reflexivity. }
  rewrite process_conf_resolve. split.
  - destruct (parse_all_fails lines i line _ 1 Hi Hb He) as [e ->].
    exists e. reflexivity.
  - intros Hbefore.
    rewrite (parse_all_first_error lines i line _ 1 Hi Hb He); [reflexivity |].
    intros j l Hj Hl.
    replace (1 + Z.of_nat j) with (Z.of_nat (S j)) by lia. eauto.
Qed.

(** C5 (end-to-end scenario).  The three-line config with a total
    duration of 720 seconds yields three descriptors, in file order, with
    starts 0, 195, 640, ends 195, 640, 720, the names Intro, Main, Outro
    and the track numbers 1, 2, 3 of the leading numerals. *)
Theorem C5_end_to_end :
  process_conf file_path
    (Some ["1 - Intro - 00:00"; "2 - Main - 03:15"; "3 - Outro - 10:40"])
    album_ (Some 720) composer_ total_discs_ disc_number_ artist_ =
  inr [ {| name := "Intro"; track_number := 1; track_start := 0;
           track_end := Some 195; album := album_; artist := artist_;
           composer := composer_; total_discs := total_discs_;
           disc_number := disc_number_ |};
        {| name := "Main"; track_number := 2; track_start := 195;
           track_end := Some 640; album := album_; artist := artist_;
           composer := composer_; total_discs := total_discs_;
           disc_number := disc_number_ |};
        {| name := "Outro"; track_number := 3; track_start := 640;
           track_end := Some 720; album := album_; artist := artist_;
           composer := composer_; total_discs := total_discs_;
           disc_number := disc_number_ |} ].
Proof. vm_compute. reflexivity. Qed.

(** C8 (empty and one-line configs).  A config all of whose lines are
    blank yields the empty sequence and no error.  A config with exactly
    one non-blank line, which parses and converts, yields exactly one
    descriptor: it starts at the converted timestamp of the line and ends
    at the supplied total duration. *)
Theorem C8_empty_and_single (duration : option Z) :
  (forall lines,
     Forall (fun line => blank line = true) lines ->
     process_conf file_path (Some lines) album_ duration composer_
       total_discs_ disc_number_ artist_ = inr []) /\
  (forall before line after track_num track_name time_stamp_str sec,
     Forall (fun l => blank l = true) before ->
     Forall (fun l => blank l = true) after ->
     blank line = false ->
     extract_fields (Z.of_nat (S (length before))) (strip line) =
       inr (track_num, track_name, time_stamp_str) ->
     time_stamp_to_seconds time_stamp_str = inr sec ->
     process_conf file_path (Some (before ++ line :: after)%list) album_
       duration composer_ total_discs_ disc_number_ artist_ =
     inr [ {| name := strip track_name; track_number := track_num;
              track_start := sec; track_end := duration;
              album := album_; artist := artist_; composer := composer_;
              total_discs := total_discs_; disc_number := disc_number_ |} ]).
Proof.
  split.
  - intros lines H. rewrite process_conf_resolve, parse_all_blank by exact H.
    reflexivity.
  - intros before line after num nm ts sec Hb Ha Hl Hx Hs.
    rewrite process_conf_resolve, parse_all_app.
    rewrite parse_all_blank by exact Hb.
    replace (1 + Z.of_nat (length before))
      with (Z.of_nat (S (length before))) by lia.
    rewrite bind_ret, parse_all_cons, Hl.
    unfold parse_line. rewrite Hx, bind_ret. cbv beta iota. rewrite Hs.
    rewrite parse_all_blank by exact Ha. reflexivity.
Qed.

End Claims.

(** ** The calls of [set_track_end] *)

Lemma closing_writes_snoc (l : list TrackInfo) (t : TrackInfo) :
  forall k,
    closing_writes k (l ++ [t])%list =
    (closing_writes k l ++ [((k + length l)%nat, track_end t)])%list.
Proof.
  induction l as [| t0 l IH]; intros k; simpl.
  - now rewrite Nat.add_0_r.
  - rewrite IH, Nat.add_succ_r. reflexivity.
Qed.

Lemma writes_to_closing (l : list TrackInfo) (i : nat) :
  forall k,
    writes_to i (closing_writes k l) =
    if (i <? k)%nat then []
    else match nth_error l (i - k) with
         | Some t => [track_end t]
         | None => []
         end.
Proof.
  unfold writes_to.
  induction l as [| t l IH]; intros k; simpl.
  - destruct (i <? k)%nat; [reflexivity |]. now destruct (i - k)%nat.
  - destruct (Nat.eqb_spec k i) as [-> | Hne]; simpl; rewrite IH.
    + rewrite Nat.ltb_irrefl, Nat.sub_diag.
      replace (i <? S i)%nat with true by (symmetry; apply Nat.ltb_lt; lia).
      reflexivity.
    + destruct (Nat.ltb_spec i k) as [Hlt | Hge].
      * replace (i <? S k)%nat with true by (symmetry; apply Nat.ltb_lt; lia).
        reflexivity.
      * replace (i <? S k)%nat with false by (symmetry; apply Nat.ltb_ge; lia).
        replace (i - k)%nat with (S (i - S k)) by lia. reflexivity.
Qed.

Section WriteFacts.

Variable album_ : string.
Variable composer_ : option string.
Variable total_discs_ disc_number_ : option Z.
Variable artist_ : option string.

Local Abbreviation step' := (step album_ composer_ total_discs_ disc_number_ artist_).
Local Abbreviation resolve' := (resolve_boundaries album_ composer_ total_discs_ disc_number_ artist_).

Lemma writes_inv_step (st : store) (e : entry) :
  writes_inv st -> writes_inv (step' st e).
Proof.
  unfold writes_inv. intros H.
  rewrite tracks_step, removelast_last.
  unfold step, append_track, close_last. simpl.
  destruct (tracks st) as [| t0 l] eqn:E; [exact H |].
  destruct (exists_last (l := t0 :: l)) as [closed [t Hl]]; [discriminate |].
  rewrite Hl in *. cbn [writes tracks].
  rewrite removelast_last in H.
  rewrite update_last_snoc, closing_writes_snoc, H, length_app. simpl.
  do 3 f_equal. lia.
Qed.

Lemma writes_inv_fold (es : list entry) :
  forall st, writes_inv st -> writes_inv (fold_left step' es st).
Proof.
  induction es as [| e es IH]; intros st H; simpl; [exact H |].
  apply IH, writes_inv_step, H.
Qed.

Lemma writes_close_last (v : option Z) (st : store) :
  writes_inv st ->
  writes (close_last v st) = closing_writes 0 (tracks (close_last v st)).
Proof.
  unfold writes_inv. intros H. rewrite tracks_close_last.
  unfold close_last.
  destruct (tracks st) as [| t0 l] eqn:E; [exact H |].
  destruct (exists_last (l := t0 :: l)) as [closed [t Hl]]; [discriminate |].
  rewrite Hl in *. cbn [writes].
  rewrite removelast_last in H.
  rewrite update_last_snoc, closing_writes_snoc, H, length_app. simpl.
  do 3 f_equal. lia.
Qed.

Lemma resolve_all_closed (es : list entry) (d : Z) :
  Forall (fun t => track_end t <> None) (resolve' es (Some d)).
Proof.
  apply Forall_forall. intros t Hin.
  apply In_nth_error in Hin as [i Hi]. rewrite resolve_nth in Hi.
  destruct (nth_error es i); [| discriminate].
  destruct (nth_error es (S i)); injection Hi as <-; discriminate.
Qed.

Lemma resolve_one_open (es : list entry) :
  es <> [] -> one_open (resolve' es None).
Proof.
  intros Hne. destruct (exists_last Hne) as [es' [e ->]].
  rewrite (resolve_snoc _ _ _ _ _ es' e None None), resolve_final.
  rewrite set_track_end_new_track.
  eexists _, _. split; [reflexivity |]. split.
  - destruct e as [[num nm] sec]. reflexivity.
  - apply resolve_all_closed.
Qed.

End WriteFacts.

Section Invariant.

Variable album_ : string.
Variable duration : option Z.
Variable composer_ : option string.
Variable total_discs_ disc_number_ : option Z.
Variable artist_ : option string.

Local Abbreviation stp :=
  (step album_ composer_ total_discs_ disc_number_ artist_).
Local Abbreviation res :=
  (resolve_boundaries album_ composer_ total_discs_ disc_number_ artist_).

(** C9 (one open descriptor, one write each).  Take the pass at the point
    where the lines [lines1] have been consumed (store [st1]) and let it run
    over the remaining lines [lines2] (store [st2]) and through the final
    call of line 190.  At that point a non-empty accumulator has exactly
    one descriptor without [track_end], the last one, and [set_track_end]
    has been called once on every other descriptor and never on the last.
    From there on a descriptor keeps every field but [track_end], and a
    descriptor whose [track_end] is set is never changed again.  When
    [process_conf] returns, [set_track_end] has been called exactly once on
    every descriptor, with the start of the next descriptor, or with the
    supplied total duration on the last. *)
Theorem C9_one_open_one_write (lines1 lines2 : list string) (st1 st2 : store) :
  loop album_ composer_ total_discs_ disc_number_ artist_
    1 lines1 empty_store = inr st1 ->
  loop album_ composer_ total_discs_ disc_number_ artist_
    (1 + Z.of_nat (length lines1)) lines2 st1 = inr st2 ->
  (tracks st1 <> [] -> one_open (tracks st1)) /\
  (forall i t,
     nth_error (tracks st1) i = Some t ->
     writes_to i (writes st1) =
     match track_end t with
     | Some v => [Some v]
     | None => []
     end) /\
  (forall i t,
     nth_error (tracks st1) i = Some t ->
     exists t',
       nth_error (tracks (close_last duration st2)) i = Some t' /\
       same_but_track_end t t' /\
       (track_end t <> None -> t' = t)) /\
  (forall i t,
     nth_error (tracks (close_last duration st2)) i = Some t ->
     writes_to i (writes (close_last duration st2)) = [track_end t] /\
     track_end t =
     match nth_error (tracks (close_last duration st2)) (S i) with
     | Some t' => Some (track_start t')
     | None => duration
     end).
Proof.
  intros H1 H2.
  rewrite loop_parse_all in H1, H2.
  apply bind_inr in H1 as [es1 [_ H1]]. injection H1 as <-.
  apply bind_inr in H2 as [es2 [_ H2]]. injection H2 as <-.
  assert (T1 : tracks (fold_left stp es1 empty_store) = res es1 None)
    by (apply (tracks_fold _ _ _ _ _ es1 empty_store []); reflexivity).
  assert (T2 : tracks (close_last duration
                         (fold_left stp es2 (fold_left stp es1 empty_store))) =
               res (es1 ++ es2)%list duration).
  { rewrite tracks_close_last.
    rewrite (tracks_fold _ _ _ _ _ es2 _ es1 T1). apply resolve_final. }
  assert (W1 : writes_inv (fold_left stp es1 empty_store))
    by (apply writes_inv_fold; reflexivity).
  assert (W2 : writes (close_last duration
                         (fold_left stp es2 (fold_left stp es1 empty_store))) =
               closing_writes 0 (res (es1 ++ es2)%list duration)).
  { rewrite <- T2. apply writes_close_last. now apply writes_inv_fold. }
  rewrite T2, W2, T1. unfold writes_inv in W1. rewrite W1, T1.
  clear T1 T2 W1 W2. split; [| split; [| split]].
  - intros Hne. apply resolve_one_open. intros ->. now apply Hne.
  - intros i t Hi. rewrite writes_to_closing. simpl. rewrite Nat.sub_0_r.
    destruct es1 as [| e0 es1'] using rev_ind; [destruct i; discriminate |].
    clear IHes1'.
    rewrite (resolve_snoc _ _ _ _ _ es1' e0 None None), resolve_final in Hi |- *.
    rewrite removelast_last.
    destruct (Nat.lt_ge_cases i (length es1')) as [Hlt | Hge].
    + rewrite nth_error_app1 in Hi by (now rewrite resolve_length).
      rewrite Hi. rewrite resolve_nth in Hi.
      destruct (nth_error es1' i); [| discriminate].
      destruct (nth_error es1' (S i)); injection Hi as <-; reflexivity.
    + rewrite (proj2 (nth_error_None _ i)) by (now rewrite resolve_length).
      rewrite nth_error_app2 in Hi by (now rewrite resolve_length).
      rewrite resolve_length in Hi.
      destruct (i - length es1')%nat as [| j]; [| destruct j; discriminate].
      injection Hi as <-. destruct e0 as [[num nm] sec]. reflexivity.
  - intros i t H. rewrite resolve_nth in H.
    destruct (nth_error es1 i) as [e |] eqn:E; [| discriminate].
    rewrite resolve_nth, nth_error_app1, E
      by (apply nth_error_Some; congruence).
    destruct (nth_error es1 (S i)) as [e' |] eqn:E'.
    + rewrite nth_error_app1, E' by (apply nth_error_Some; congruence).
      injection H as <-. eexists. split; [reflexivity |].
      split; [destruct e as [[num nm] sec]; repeat split | reflexivity].
    + injection H as <-. eexists. split; [reflexivity |].
      split; [destruct e as [[num nm] sec]; repeat split |].
      intros Hc. exfalso. apply Hc. reflexivity.
  - intros i t H. split.
    + rewrite writes_to_closing. simpl. rewrite Nat.sub_0_r. now rewrite H.
    + rewrite resolve_nth in H |- *.
      destruct (nth_error (es1 ++ es2) i) as [e |]; [| discriminate].
      destruct (nth_error (es1 ++ es2) (S i)) as [e' |];
        injection H as <-; [| reflexivity].
      now rewrite track_start_resolved.
Qed.

End Invariant.

(** ** Characters, [split] and [int()] *)

Ltac by_cases_on_ascii a :=
  destruct a as [[|] [|] [|] [|] [|] [|] [|] [|]];
  try discriminate; try reflexivity.

Lemma digit_not_colon (a : ascii) :
  isdigit a = true -> Ascii.eqb a ":" = false.
Proof. by_cases_on_ascii a. Qed.

Lemma digit_not_blank (a : ascii) : isdigit a = true -> int_blank a = false.
Proof. by_cases_on_ascii a. Qed.

Lemma digit_not_space (a : ascii) : isdigit a = true -> Ascii.eqb a " " = false.
Proof. by_cases_on_ascii a. Qed.

Lemma digit_not_hash (a : ascii) : isdigit a = true -> Ascii.eqb a "#" = false.
Proof. by_cases_on_ascii a. Qed.


Lemma int_literal_digit (a : ascii) (s : string) :
  isdigit a = true ->
  int_literal (String a s) = int_digits 0 false (String a s).
Proof. by_cases_on_ascii a. Qed.

Lemma split_nonempty (sep : ascii) (s : string) : split sep s <> [].
Proof.
  induction s as [| a s IH]; simpl; [discriminate |].
  destruct (Ascii.eqb a sep); [discriminate |].
  destruct (split sep s); discriminate.
Qed.

Lemma split_no_sep (sep : ascii) (s : string) :
  all_chars (fun a => negb (Ascii.eqb a sep)) s = true -> split sep s = [s].
Proof.
  induction s as [| a s IH]; simpl; [reflexivity |].
  intros H. apply andb_true_iff in H as [Ha Hs].
  apply negb_true_iff in Ha. rewrite Ha, (IH Hs). reflexivity.
Qed.

Lemma split_app_sep (sep : ascii) (g rest : string) :
  all_chars (fun a => negb (Ascii.eqb a sep)) g = true ->
  split sep (g ++ String sep rest) = g :: split sep rest.
Proof.
  induction g as [| a g IH]; simpl.
  - intros _. now rewrite Ascii.eqb_refl.
  - intros H. apply andb_true_iff in H as [Ha Hs].
    apply negb_true_iff in Ha. rewrite Ha, (IH Hs). reflexivity.
Qed.

Lemma all_chars_impl (p q : ascii -> bool) (s : string) :
  (forall a, p a = true -> q a = true) ->
  all_chars p s = true -> all_chars q s = true.
Proof.
  intros Hpq. induction s as [| a s IH]; simpl; [reflexivity |].
  intros H. apply andb_true_iff in H as [Ha Hs].
  now rewrite (Hpq a Ha), (IH Hs).
Qed.

Lemma digits_no_colon (g : string) :
  all_chars isdigit g = true ->
  all_chars (fun a => negb (Ascii.eqb a ":")) g = true.
Proof.
  apply all_chars_impl. intros a H. now rewrite (digit_not_colon a H).
Qed.

Lemma is_digits_inv (g : string) :
  is_digits g = true ->
  exists a g', g = String a g' /\ isdigit a = true /\ all_chars isdigit g' = true.
Proof.
  unfold is_digits. destruct g as [| a g']; simpl; [discriminate |].
  intros H. apply andb_true_iff in H as [Ha Hg]. eauto.
Qed.

Lemma is_digits_all (g : string) :
  is_digits g = true -> all_chars isdigit g = true.
Proof. unfold is_digits. intros H. now apply andb_true_iff in H as [_ H]. Qed.

Lemma rskip_digits (g : string) :
  all_chars isdigit g = true -> rskip int_blank g = g.
Proof.
  induction g as [| a g IH]; simpl; [reflexivity |].
  intros H. apply andb_true_iff in H as [Ha Hg].
  rewrite (IH Hg), (digit_not_blank a Ha). now destruct g.
Qed.

Lemma int_digits_digits (g : string) :
  forall acc b,
    all_chars isdigit g = true ->
    int_digits acc b g =
    if is_empty g then (if b then Some acc else None)
    else Some (digits_value_from acc g).
Proof.
  induction g as [| a g IH]; intros acc b H; simpl; [reflexivity |].
  simpl in H. apply andb_true_iff in H as [Ha Hg].
  rewrite Ha, (IH _ _ Hg). now destruct g.
Qed.

(** [int()] on a run of digits is the number the run denotes. *)
Lemma py_int_digits (g : string) :
  is_digits g = true -> py_int g = inr (digits_value g).
Proof.
  intros H. pose proof (is_digits_all g H) as Hall.
  destruct (is_digits_inv g H) as [a [g' [-> [Ha Hg']]]].
  unfold py_int. simpl lskip. rewrite (digit_not_blank a Ha).
  rewrite (rskip_digits _ Hall), (int_literal_digit a g' Ha).
  rewrite (int_digits_digits _ 0 false Hall). reflexivity.
Qed.

Lemma py_int_error (g : string) (e : error) :
  py_int g = inl e -> e = InvalidLiteral g.
Proof.
  unfold py_int. destruct (int_literal _); [discriminate |].
  intros H. now injection H as <-.
Qed.

Lemma map_result_ok (parts : list string) :
  Forall int_ok parts <->
  exists values, map_result py_int parts = inr values.
Proof.
  induction parts as [| g parts IH]; simpl.
  - split; [eauto | constructor].
  - split.
    + intros H. inversion H as [| ? ? [z Hz] Hrest]; subst.
      apply IH in Hrest as [values Hv]. rewrite Hz, Hv. simpl. eauto.
    + intros [values H].
      apply bind_inr in H as [z [Hz H]].
      apply bind_inr in H as [vs [Hvs _]].
      constructor; [now exists z | apply IH; eauto].
Qed.

Lemma map_result_length (parts : list string) :
  forall values,
    map_result py_int parts = inr values -> length values = length parts.
Proof.
  induction parts as [| g parts IH]; simpl; intros values H.
  - now injection H as <-.
  - apply bind_inr in H as [z [_ H]].
    apply bind_inr in H as [vs [Hvs H]]. injection H as <-.
    simpl. now rewrite (IH _ Hvs).
Qed.

Lemma map_result_error (parts : list string) (e : error) :
  map_result py_int parts = inl e ->
  exists g, In g parts /\ ~ int_ok g /\ e = InvalidLiteral g.
Proof.
  induction parts as [| g parts IH]; simpl; [discriminate |].
  intros H. apply bind_inl in H as [H | [z [Hz H]]].
  - exists g. split; [now left |]. split.
    + intros [z Hz]. congruence.
    + now apply py_int_error.
  - apply bind_inl in H as [H | [vs [_ H]]]; [| discriminate].
    destruct (IH H) as [g' [Hin Hg']]. exists g'. split; [now right | exact Hg'].
Qed.

Lemma split_join_digits (gs : list string) :
  gs <> [] ->
  Forall (fun g => is_digits g = true) gs ->
  split ":" (join ":" gs) = gs.
Proof.
  induction gs as [| g gs IH]; intros Hne H; [congruence |].
  inversion H as [| ? ? Hg Hgs]; subst.
  apply is_digits_all, digits_no_colon in Hg.
  destruct gs as [| g' gs'].
  - now apply split_no_sep.
  - change (join ":" (g :: g' :: gs')) with (g ++ String ":" (join ":" (g' :: gs'))).
    rewrite (split_app_sep _ _ _ Hg), IH; [reflexivity | discriminate | exact Hgs].
Qed.

Lemma map_result_digits (gs : list string) :
  Forall (fun g => is_digits g = true) gs ->
  map_result py_int gs = inr (map digits_value gs).
Proof.
  induction 1 as [| g gs Hg _ IH]; simpl; [reflexivity |].
  now rewrite (py_int_digits g Hg), IH.
Qed.

(** ** The claims on the timestamp conversion *)

(** C2 (positional-weighted summation).  On one to four groups of decimal
    digits, of any length and value, [time_stamp_to_seconds] returns the
    sum of the values of the groups weighted, from the right, by 1, 60,
    3600 and 86400; no group is checked against a calendar range: 90
    minutes are 5400 seconds.  "02:03" yields 123, "01:02:03" yields 3723,
    "59" yields 59 and "1:02:03:04" yields 93784. *)
Theorem C2_positional_sum (d h m s : string) :
  is_digits d = true -> is_digits h = true ->
  is_digits m = true -> is_digits s = true ->
  time_stamp_to_seconds s = inr (digits_value s) /\
  time_stamp_to_seconds (m ++ ":" ++ s) =
    inr (60 * digits_value m + digits_value s) /\
  time_stamp_to_seconds (h ++ ":" ++ m ++ ":" ++ s) =
    inr (3600 * digits_value h + 60 * digits_value m + digits_value s) /\
  time_stamp_to_seconds (d ++ ":" ++ h ++ ":" ++ m ++ ":" ++ s) =
    inr (86400 * digits_value d + 3600 * digits_value h
         + 60 * digits_value m + digits_value s) /\
  time_stamp_to_seconds "90:00" = inr 5400 /\
  time_stamp_to_seconds "02:03" = inr 123 /\
  time_stamp_to_seconds "01:02:03" = inr 3723 /\
  time_stamp_to_seconds "59" = inr 59 /\
  time_stamp_to_seconds "1:02:03:04" = inr 93784.
Proof.
  intros Hd Hh Hm Hs.
  assert (G : forall gs,
             gs <> [] -> Forall (fun g => is_digits g = true) gs ->
             time_stamp_to_seconds (join ":" gs) =
             match map digits_value gs with
             | [p0] => ret p0
             | [p0; p1] => ret (p0 * 60 + p1)
             | [p0; p1; p2] => ret (p0 * 3600 + p1 * 60 + p2)
             | [p0; p1; p2; p3] => ret (p0 * 86400 + p1 * 3600 + p2 * 60 + p3)
             | _ => raise (UnsupportedTimestampFormat (join ":" gs))
             end).
  { intros gs Hne Hgs. unfold time_stamp_to_seconds.
    now rewrite (split_join_digits gs Hne Hgs), (map_result_digits gs Hgs). }
  split; [| split; [| split; [| split]]].
  - exact (G [s] ltac:(discriminate) ltac:(repeat constructor; assumption)).
  - etransitivity;
      [exact (G [m; s] ltac:(discriminate)
                ltac:(repeat constructor; assumption)) |].
    unfold ret. simpl map. f_equal. lia.
  - etransitivity;
      [exact (G [h; m; s] ltac:(discriminate)
                ltac:(repeat constructor; assumption)) |].
    unfold ret. simpl map. f_equal. lia.
  - etransitivity;
      [exact (G [d; h; m; s] ltac:(discriminate)
                ltac:(repeat constructor; assumption)) |].
    unfold ret. simpl map. f_equal. lia.
  - repeat split; vm_compute; reflexivity.
Qed.

(** C6, amended.  The string always splits into at least one group.
    [time_stamp_to_seconds] fails with the unsupported-format error, which
    carries the whole string, exactly when [int()] accepts every group and
    there are more than four groups; it returns a number when [int()]
    accepts every group and there are at most four; and when [int()]
    rejects a group the failure is that of [int()] on a group, whatever
    the number of groups.  "1:2:3:4:5" fails with the unsupported-format
    error. *)
Theorem C6_unsupported_format (time_stamp : string) :
  (1 <= length (split ":" time_stamp))%nat /\
  (time_stamp_to_seconds time_stamp =
     inl (UnsupportedTimestampFormat time_stamp) <->
   Forall int_ok (split ":" time_stamp) /\
   (4 < length (split ":" time_stamp))%nat) /\
  (Forall int_ok (split ":" time_stamp) ->
   (length (split ":" time_stamp) <= 4)%nat ->
   exists sec, time_stamp_to_seconds time_stamp = inr sec) /\
  (~ Forall int_ok (split ":" time_stamp) ->
   exists g, In g (split ":" time_stamp) /\ ~ int_ok g /\
             time_stamp_to_seconds time_stamp = inl (InvalidLiteral g)) /\
  time_stamp_to_seconds "1:2:3:4:5" =
    inl (UnsupportedTimestampFormat "1:2:3:4:5").
Proof.
  assert (Hpos : (1 <= length (split ":" time_stamp))%nat).
  { pose proof (split_nonempty ":" time_stamp) as Hne.
    destruct (split ":" time_stamp); [congruence | simpl; lia]. }
  unfold time_stamp_to_seconds.
  destruct (map_result py_int (split ":" time_stamp)) as [e | values] eqn:E.
  - destruct (map_result_error _ _ E) as [g [Hin [Hbad ->]]].
    assert (Hnot : ~ Forall int_ok (split ":" time_stamp)).
    { intros H. apply map_result_ok in H as [vs Hvs]. congruence. }
    split; [exact Hpos |].
    split; [split; [discriminate | intros [H _]; contradiction] |].
    split; [intros H; contradiction |].
    split; [| reflexivity]. intros _. exists g. auto.
  - assert (Hok : Forall int_ok (split ":" time_stamp))
      by (apply map_result_ok; eauto).
    apply map_result_length in E. rewrite <- E in *.
    split; [exact Hpos |].
    split; [| split; [| split; [intros H; contradiction | reflexivity]]].
    + destruct values as [| p0 [| p1 [| p2 [| p3 [| p4 rest]]]]];
        cbn [length] in *; [lia | | | | |]; unfold bind, ret, raise;
        (split; [intros H; first [discriminate H | split; [exact Hok | lia]]
                | intros [_ H]; first [lia | reflexivity]]).
    + intros _ Hlen.
      destruct values as [| p0 [| p1 [| p2 [| p3 [| p4 rest]]]]]; simpl in *;
        try lia; eauto.
Qed.

(** ** Strings *)

Lemma str_length_app (p s : string) :
  String.length (p ++ s) = (String.length p + String.length s)%nat.
Proof. induction p as [| a p IH]; simpl; [reflexivity | now rewrite IH]. Qed.

Lemma str_app_nil_r (s : string) : (s ++ "")%string = s.
Proof. induction s as [| a s IH]; simpl; [reflexivity | now rewrite IH]. Qed.

Lemma str_app_assoc (a b c : string) :
  ((a ++ b) ++ c)%string = (a ++ (b ++ c))%string.
Proof. induction a as [| x a IH]; simpl; [reflexivity | now rewrite IH]. Qed.

Lemma take_app (p s : string) : take (String.length p) (p ++ s) = p.
Proof. induction p as [| a p IH]; simpl; [now destruct s | now rewrite IH]. Qed.

(** The text a group captures when it consumed the prefix [p]. *)
Lemma take_consumed (p s : string) :
  take (String.length (p ++ s) - String.length s) (p ++ s) = p.
Proof.
  rewrite str_length_app, Nat.add_sub. apply take_app.
Qed.

Lemma digit_pairs_ind' (P : string -> Prop) :
  P EmptyString ->
  (forall a b s,
     isdigit a = true -> isdigit b = true -> digit_pairs s = true ->
     P s -> P (String a (String b s))) ->
  forall s, digit_pairs s = true -> P s.
Proof.
  intros H0 H2. fix IH 1. intros [| a [| b s]] H; simpl in H.
  - exact H0.
  - discriminate.
  - apply andb_true_iff in H as [H Hs]. apply andb_true_iff in H as [Ha Hb].
    apply H2; auto.
Qed.

Lemma digit_pairs_digits (s : string) :
  digit_pairs s = true -> all_chars isdigit s = true.
Proof.
  revert s. apply (digit_pairs_ind' (fun s => all_chars isdigit s = true));
    [reflexivity |].
  intros a b s' Ha Hb _ IH. simpl. now rewrite Ha, Hb, IH.
Qed.

Lemma is_digit_pairs_digits (s : string) :
  is_digit_pairs s = true -> is_digits s = true.
Proof.
  unfold is_digit_pairs, is_digits. intros H.
  apply andb_true_iff in H as [Hne H].
  now rewrite Hne, (digit_pairs_digits s H).
Qed.

Lemma group_pair_captures (n j : nat) (s : string) :
  forall c, j <> n -> group (pair_captures n s c) j = group c j.
Proof.
  intros c Hj. revert c.
  assert (G : forall k (s : string),
             (String.length s <= k)%nat ->
             forall c, group (pair_captures n s c) j = group c j).
  { induction k as [| k IH]; intros [| a [| b s']] Hlen c; simpl in *;
      try reflexivity; try lia.
    rewrite IH by lia. simpl.
    destruct (Nat.eqb_spec n j); [congruence | reflexivity]. }
  intros c. now apply (G (String.length s)).
Qed.

(** ** The rounds of the repetitions on the shapes of the config lines *)

Lemma greedy_rounds_eq (body : string -> captures -> cont -> option captures)
  (k : cont) (fuel : nat) (s : string) (c : captures) :
  greedy_rounds body k fuel s c =
  body s c (fun s' c' =>
    match fuel with
    | O => k s' c'
    | S fuel' =>
        if (String.length s' <? String.length s)%nat then
          match greedy_rounds body k fuel' s' c' with
          | Some m => Some m
          | None => k s' c'
          end
        else k s' c'
    end).
Proof. destruct fuel; reflexivity. Qed.

Lemma lazy_rounds_eq (body : string -> captures -> cont -> option captures)
  (k : cont) (fuel : nat) (s : string) (c : captures) :
  lazy_rounds body k fuel s c =
  match k s c with
  | Some m => Some m
  | None =>
      match fuel with
      | O => None
      | S fuel' =>
          body s c (fun s' c' =>
            if (String.length s' <? String.length s)%nat
            then lazy_rounds body k fuel' s' c' else None)
      end
  end.
Proof. destruct fuel; reflexivity. Qed.

Lemma rmatch_chr (cs : charset) (a : ascii) (s : string) (c : captures)
  (k : cont) :
  rmatch (Chr cs) (String a s) c k = if in_charset cs a then k s c else None.
Proof. reflexivity. Qed.

Lemma rmatch_cat (r1 r2 : regex) (s : string) (c : captures) (k : cont) :
  rmatch (Cat r1 r2) s c k = rmatch r1 s c (fun s' c' => rmatch r2 s' c' k).
Proof. reflexivity. Qed.

Lemma rmatch_opt_take (r : regex) (s : string) (c : captures) (k : cont)
  (m : captures) :
  rmatch r s c k = Some m -> rmatch (Opt r) s c k = Some m.
Proof. intros H. cbn [rmatch]. now rewrite H. Qed.

Lemma rmatch_opt_skip (r : regex) (s : string) (c : captures) (k : cont) :
  rmatch r s c k = None -> rmatch (Opt r) s c k = k s c.
Proof. intros H. cbn [rmatch]. now rewrite H. Qed.

Lemma rmatch_plus (r : regex) (s : string) (c : captures) (k : cont) :
  rmatch (Plus r) s c k = greedy_rounds (rmatch r) k (String.length s) s c.
Proof. reflexivity. Qed.

Lemma rmatch_lazy (r : regex) (s : string) (c : captures) (k : cont) :
  rmatch (LazyStar r) s c k = lazy_rounds (rmatch r) k (String.length s) s c.
Proof. reflexivity. Qed.

Lemma rmatch_group (n : nat) (r : regex) (s : string) (c : captures)
  (k : cont) :
  rmatch (Group n r) s c k =
  rmatch r s c (fun s' c' =>
    k s' ((n, take (String.length s - String.length s') s) :: c')).
Proof. reflexivity. Qed.

(** [\d+] takes a whole run of digits when the rest of the pattern accepts
    what follows the run. *)
Lemma digits_greedy (ds : string) :
  forall fuel rest c k m,
    is_digits ds = true ->
    (String.length ds <= S fuel)%nat ->
    first_is isdigit rest = false ->
    k rest c = Some m ->
    greedy_rounds (rmatch (Chr Digit)) k fuel (ds ++ rest) c = Some m.
Proof.
  induction ds as [| a ds IH]; intros fuel rest c k m Hds Hfuel Hrest Hk;
    [discriminate |].
  unfold is_digits in Hds. simpl in Hds.
  apply andb_true_iff in Hds as [Ha Hds].
  rewrite greedy_rounds_eq.
  change (String a ds ++ rest)%string with (String a (ds ++ rest)).
  rewrite rmatch_chr. cbn [in_charset]. rewrite Ha.
  destruct ds as [| b ds'].
  - cbn [append]. destruct fuel as [| fuel']; [exact Hk |].
    replace (String.length rest <? String.length (String a rest))%nat
      with true by (symmetry; apply Nat.ltb_lt; simpl; lia).
    rewrite greedy_rounds_eq.
    destruct rest as [| x rest']; [exact Hk |].
    rewrite rmatch_chr. cbn [in_charset].
    simpl in Hrest. rewrite Hrest. exact Hk.
  - destruct fuel as [| fuel']; [simpl in Hfuel; lia |].
    replace (String.length (String b ds' ++ rest)
             <? String.length (String a (String b ds' ++ rest)))%nat
      with true by (symmetry; apply Nat.ltb_lt; simpl; lia).
    rewrite (IH fuel' rest c k m); [reflexivity | | | exact Hrest | exact Hk].
    + unfold is_digits. exact Hds.
    + simpl in *. lia.
Qed.

Section Pairs.

Variable n : nat.

Local Abbreviation pair_re :=
  (Group n (Chr Digit +> Chr Digit +> Opt (Chr (Lit ":"))))%re.

(** One round over two digits that no colon follows. *)
Lemma pair_round (a b : ascii) (rest : string) (c : captures) (k : cont) :
  isdigit a = true -> isdigit b = true ->
  first_is (fun x => Ascii.eqb x ":") rest = false ->
  rmatch pair_re (String a (String b rest)) c k =
  k rest ((n, String a (String b EmptyString)) :: c).
Proof.
  intros Ha Hb Hrest.
  rewrite rmatch_group, rmatch_cat, rmatch_chr. cbn [in_charset].
  rewrite Ha. cbv beta. rewrite rmatch_cat, rmatch_chr. cbn [in_charset].
  rewrite Hb. cbv beta. rewrite rmatch_opt_skip.
  - replace (String.length (String a (String b rest)) - String.length rest)%nat
      with 2%nat by (cbn [String.length]; lia).
    reflexivity.
  - destruct rest as [| x rest']; [reflexivity |].
    rewrite rmatch_chr. cbn [in_charset]. simpl in Hrest. now rewrite Hrest.
Qed.

Lemma pair_round_fails (s : string) (c : captures) (k : cont) :
  first_is isdigit s = false -> rmatch pair_re s c k = None.
Proof.
  intros H. destruct s as [| a s']; [reflexivity |].
  simpl in H. rewrite rmatch_group, rmatch_cat, rmatch_chr.
  cbn [in_charset]. now rewrite H.
Qed.

(** [(\d{2}\:{0,1})+] takes a whole colon-less run of pairs when the rest
    of the pattern accepts what follows the run. *)
Lemma pairs_greedy (run : string) :
  digit_pairs run = true ->
  forall fuel rest c k m,
    run <> EmptyString ->
    (String.length run <= S fuel)%nat ->
    ends_timestamp rest = true ->
    k rest (pair_captures n run c) = Some m ->
    greedy_rounds (rmatch pair_re) k fuel (run ++ rest) c = Some m.
Proof.
  revert run.
  apply (digit_pairs_ind' (fun run =>
    forall fuel rest c k m,
      run <> EmptyString ->
      (String.length run <= S fuel)%nat ->
      ends_timestamp rest = true ->
      k rest (pair_captures n run c) = Some m ->
      greedy_rounds (rmatch pair_re) k fuel (run ++ rest) c = Some m)).
  - intros fuel rest c k m Hne. congruence.
  - intros a b run' Ha Hb Hrun' IH fuel rest c k m _ Hfuel Hrest Hk.
    unfold ends_timestamp in Hrest. apply negb_true_iff in Hrest.
    assert (Hcolon : first_is (fun x => Ascii.eqb x ":") (run' ++ rest) = false).
    { destruct run' as [| x run'']; simpl.
      - destruct rest as [| y rest']; [reflexivity |]. simpl in Hrest.
        now apply orb_false_iff in Hrest as [_ Hrest].
      - simpl in Hrun'. destruct run'' as [| z r]; [discriminate |].
        apply andb_true_iff in Hrun' as [Hx _].
        apply andb_true_iff in Hx as [Hx _]. now apply digit_not_colon. }
    rewrite greedy_rounds_eq.
    change (String a (String b run') ++ rest)%string
      with (String a (String b (run' ++ rest))).
    rewrite (pair_round a b _ c _ Ha Hb Hcolon).
    destruct run' as [| x run''].
    + cbn [append pair_captures] in *.
      destruct fuel as [| fuel']; [exact Hk |].
      replace (String.length rest
               <? String.length (String a (String b rest)))%nat
        with true by (symmetry; apply Nat.ltb_lt; simpl; lia).
      rewrite greedy_rounds_eq, pair_round_fails; [exact Hk |].
      destruct rest as [| y rest']; [reflexivity |]. simpl in *.
      now apply orb_false_iff in Hrest as [Hrest _].
    + destruct fuel as [| fuel']; [simpl in Hfuel; lia |].
      replace (String.length (String x run'' ++ rest)
               <? String.length (String a (String b (String x run'' ++ rest))))%nat
        with true by (symmetry; apply Nat.ltb_lt; simpl; lia).
      rewrite (IH fuel' rest _ k m); [reflexivity | discriminate | | | exact Hk].
      * simpl in *. lia.
      * unfold ends_timestamp. now rewrite Hrest.
Qed.

End Pairs.

(** [.*?] stops at the first point where the rest of the pattern accepts
    what is left. *)
Lemma lazy_any (title : string) :
  forall fuel rest c k m,
    all_chars (fun a => negb (Ascii.eqb a "010")) title = true ->
    (String.length title <= fuel)%nat ->
    (forall t1 t2,
       title = (t1 ++ t2)%string -> t2 <> EmptyString ->
       k (t2 ++ rest)%string c = None) ->
    k rest c = Some m ->
    lazy_rounds (rmatch (Chr AnyChar)) k fuel (title ++ rest) c = Some m.
Proof.
  induction title as [| a t IH]; intros fuel rest c k m Hnl Hfuel Hearly Hk;
    rewrite lazy_rounds_eq.
  - cbn [append]. now rewrite Hk.
  - rewrite (Hearly EmptyString (String a t) eq_refl) by discriminate.
    destruct fuel as [| fuel']; [simpl in Hfuel; lia |].
    simpl in Hnl. apply andb_true_iff in Hnl as [Ha Ht].
    change (String a t ++ rest)%string with (String a (t ++ rest)).
    rewrite rmatch_chr. cbn [in_charset]. rewrite Ha.
    replace (String.length (t ++ rest)
             <? String.length (String a (t ++ rest)))%nat
      with true by (symmetry; apply Nat.ltb_lt; simpl; lia).
    apply IH; [exact Ht | simpl in Hfuel; lia | | exact Hk].
    intros t1 t2 -> Hne. now apply (Hearly (String a t1) t2).
Qed.

(** ** The two patterns on the shapes of the config lines *)

Lemma re_search_here (r : regex) (s : string) (m : captures) :
  re_match r s = Some m -> re_search r s = Some m.
Proof. intros H. destruct s; simpl; now rewrite H. Qed.

Lemma first_is_app (p : ascii -> bool) (s rest : string) :
  first_is p s = true -> first_is p (s ++ rest) = true.
Proof. destruct s; [discriminate | exact (fun H => H)]. Qed.

Lemma is_digits_first (g : string) :
  is_digits g = true -> first_is isdigit g = true.
Proof.
  intros H. destruct (is_digits_inv g H) as [a [g' [-> [Ha _]]]]. exact Ha.
Qed.

Lemma hash_fails (s : string) (c : captures) (k : cont) :
  first_is isdigit s = true -> rmatch (Chr (Lit "#")) s c k = None.
Proof.
  destruct s as [| a s']; [reflexivity |]. simpl first_is. intros H.
  rewrite rmatch_chr. cbn [in_charset]. now rewrite (digit_not_hash a H).
Qed.

Lemma bar_not_digit (b : ascii) : is_bar b = true -> isdigit b = false.
Proof. by_cases_on_ascii b. Qed.

(** The tail of the primary pattern, from the second separator on, needs
    a digit right after a space: at index 1, or at index 3 behind a
    separator. *)
Lemma config_tail_fails (s : string) (c : captures) (k : cont) :
  digit_at 1 s = false -> digit_at 3 s = false ->
  rmatch (Opt (Group 4 (Chr (Lit " ") +> Chr (OneOf ["-"; "|"]%char))) +>
          Chr (Lit " ") +>
          Group 5 (Plus (Group 6 (Chr Digit +> Chr Digit +>
                                  Opt (Chr (Lit ":"))))))%re s c k = None.
Proof.
  intros H1 H3.
  destruct s as [| a0 [| a1 [| a2 [| a3 s]]]]; unfold digit_at in *;
    simpl in H1, H3; cbn [rmatch in_charset at_end];
    repeat match goal with
      | |- context [if ?b then _ else _] => destruct b eqn:?
      end; try reflexivity; try congruence.
  all: rewrite ?greedy_rounds_eq; cbn [rmatch in_charset]; rewrite ?H1, ?H3; try reflexivity.
Qed.

Lemma no_digit_at (t2 rest : string) (b : ascii) (i : nat) :
  t2 <> EmptyString ->
  all_chars (fun a => negb (isdigit a)) t2 = true ->
  is_bar b = true ->
  (i = 1 \/ i = 3)%nat ->
  digit_at i (t2 ++ separator b ++ rest) = false.
Proof.
  intros Hne Hall Hb Hi. apply bar_not_digit in Hb.
  unfold digit_at, separator.
  destruct t2 as [| x0 [| x1 [| x2 [| x3 t]]]]; [congruence | | | |];
    simpl in Hall;
    repeat match type of Hall with
      | (_ && _ = true) => apply andb_true_iff in Hall as [? Hall]
      end;
    repeat match goal with
      | H : negb _ = true |- _ => apply negb_true_iff in H
      end;
    destruct Hi as [-> | ->]; simpl; try reflexivity; assumption.
Qed.

Lemma all_chars_app_r (p : ascii -> bool) (t1 t2 : string) :
  all_chars p (t1 ++ t2) = true -> all_chars p t2 = true.
Proof.
  induction t1 as [| a t1 IH]; simpl; [exact (fun H => H) |].
  intros H. apply andb_true_iff in H as [_ H]. now apply IH.
Qed.

(** The optional separator is taken when the rest of the pattern accepts
    what follows it. *)
Lemma separator_taken (n : nat) (b : ascii) (rest : string) (c : captures)
  (k : cont) (m : captures) :
  is_bar b = true ->
  k (String " " rest) ((n, String " " (String b EmptyString)) :: c) = Some m ->
  rmatch (Opt (Group n (Chr (Lit " ") +> Chr (OneOf ["-"; "|"]%char))))%re
    (String " " (String b (String " " rest))) c k = Some m.
Proof.
  intros Hb Hk. apply rmatch_opt_take.
  rewrite rmatch_group, rmatch_cat, rmatch_chr. cbn [in_charset].
  rewrite Ascii.eqb_refl. cbv beta. rewrite rmatch_chr.
  unfold is_bar in Hb. rewrite Hb.
  replace (String.length (String " " (String b (String " " rest)))
           - String.length (String " " rest))%nat
    with 2%nat by (cbn [String.length]; lia).
  exact Hk.
Qed.

Lemma pairs_greedy_end (n : nat) (run : string) (fuel : nat) (c : captures)
  (k : cont) (m : captures) :
  digit_pairs run = true -> run <> EmptyString ->
  (String.length run <= S fuel)%nat ->
  k EmptyString (pair_captures n run c) = Some m ->
  greedy_rounds
    (rmatch (Group n (Chr Digit +> Chr Digit +> Opt (Chr (Lit ":"))))%re)
    k fuel run c = Some m.
Proof.
  intros Hrun Hne Hfuel Hk.
  pose proof (pairs_greedy n run Hrun fuel EmptyString c k m Hne Hfuel
                eq_refl Hk) as H.
  now rewrite str_app_nil_r in H.
Qed.

Lemma take_all (s : string) : take (String.length s) s = s.
Proof. induction s as [| a s IH]; simpl; [reflexivity | now rewrite IH]. Qed.

Lemma config_pattern_match (num title run : string) (b1 b2 : ascii) :
  is_digits num = true ->
  all_chars (fun a => negb (isdigit a)) title = true ->
  all_chars (fun a => negb (Ascii.eqb a "010")) title = true ->
  is_digit_pairs run = true ->
  is_bar b1 = true -> is_bar b2 = true ->
  exists m,
    re_search CONFIG_PATTERN
      (num ++ separator b1 ++ title ++ separator b2 ++ run) = Some m /\
    group m 1 = Some num /\ group m 3 = Some title /\ group m 5 = Some run.
Proof.
  intros Hnum Hnd Hnl Hrun Hb1 Hb2.
  unfold is_digit_pairs in Hrun. apply andb_true_iff in Hrun as [Hne Hrun].
  assert (Hne' : run <> EmptyString) by (intros ->; discriminate).
  exists ((5%nat, run)
          :: pair_captures 6 run
               [(4%nat, String " " (String b2 EmptyString)); (3%nat, title);
                (2%nat, String " " (String b1 EmptyString)); (1%nat, num)]).
  split.
  - apply re_search_here. unfold re_match, CONFIG_PATTERN.
    rewrite rmatch_cat, rmatch_opt_skip
      by (apply hash_fails, first_is_app, is_digits_first, Hnum).
    cbv beta. rewrite rmatch_cat, rmatch_group, rmatch_plus.
    apply digits_greedy;
      [exact Hnum | rewrite str_length_app; lia | reflexivity |].
    rewrite take_consumed. unfold separator at 1. cbn [append].
    rewrite rmatch_cat. apply separator_taken; [exact Hb1 |].
    rewrite rmatch_cat, rmatch_chr. cbn [in_charset].
    rewrite Ascii.eqb_refl. cbv beta.
    rewrite rmatch_cat, rmatch_group, rmatch_lazy.
    apply lazy_any; [exact Hnl | rewrite str_length_app; lia | |].
    + intros t1 t2 -> Hne2. apply all_chars_app_r in Hnd.
      apply config_tail_fails; apply no_digit_at; auto.
    + rewrite take_consumed. unfold separator. cbn [append].
      rewrite rmatch_cat. apply separator_taken; [exact Hb2 |].
      rewrite rmatch_cat, rmatch_chr. cbn [in_charset].
      rewrite Ascii.eqb_refl. cbv beta.
      rewrite rmatch_group, rmatch_plus.
      apply pairs_greedy_end; [exact Hrun | exact Hne' | lia |].
      cbn [String.length]. now rewrite Nat.sub_0_r, take_all.
  - repeat split; cbn [group Nat.eqb];
      rewrite ?group_pair_captures by discriminate; reflexivity.
Qed.


Lemma at_end_false (a : ascii) (s : string) :
  all_chars (fun x => negb (Ascii.eqb x "010")) (String a s) = true ->
  at_end (String a s) = false.
Proof.
  simpl. intros H. apply andb_true_iff in H as [Ha _].
  apply negb_true_iff in Ha. destruct s; [exact Ha | reflexivity].
Qed.

Lemma lazy_any_end (title : string) (fuel : nat) (c : captures) (k : cont)
  (m : captures) :
  all_chars (fun a => negb (Ascii.eqb a "010")) title = true ->
  (String.length title <= fuel)%nat ->
  (forall t1 t2,
     title = (t1 ++ t2)%string -> t2 <> EmptyString -> k t2 c = None) ->
  k EmptyString c = Some m ->
  lazy_rounds (rmatch (Chr AnyChar)) k fuel title c = Some m.
Proof.
  intros Hnl Hfuel Hearly Hk.
  pose proof (lazy_any title fuel EmptyString c k m Hnl Hfuel) as H.
  rewrite str_app_nil_r in H. apply H; [| exact Hk].
  intros t1 t2 Ht Hne. rewrite str_app_nil_r. now apply (Hearly t1 t2).
Qed.

Lemma alt_pattern_match (run title : string) (b : ascii) :
  is_digit_pairs run = true ->
  all_chars (fun a => negb (Ascii.eqb a "010")) title = true ->
  is_bar b = true ->
  exists m,
    re_match ALT_CONFIG_PATTERN (run ++ separator b ++ title) = Some m /\
    group m 1 = Some run /\ group m 4 = Some title.
Proof.
  intros Hrun Hnl Hb.
  unfold is_digit_pairs in Hrun. apply andb_true_iff in Hrun as [Hne Hrun].
  assert (Hne' : run <> EmptyString) by (intros ->; discriminate).
  exists ((4%nat, title) :: (3%nat, String " " (String b EmptyString))
          :: (1%nat, run) :: pair_captures 2 run []).
  split.
  - unfold re_match, ALT_CONFIG_PATTERN.
    rewrite rmatch_cat, rmatch_group, rmatch_plus.
    apply pairs_greedy;
      [exact Hrun | exact Hne' | rewrite str_length_app; lia | reflexivity |].
    rewrite take_consumed. unfold separator. cbn [append].
    rewrite rmatch_cat. apply separator_taken; [exact Hb |].
    rewrite rmatch_cat, rmatch_chr. cbn [in_charset].
    rewrite Ascii.eqb_refl. cbv beta.
    rewrite rmatch_cat, rmatch_group, rmatch_lazy.
    apply lazy_any_end; [exact Hnl | lia | |].
    + intros t1 [| a t2] -> Hne2; [congruence |].
      apply all_chars_app_r in Hnl. cbn [rmatch].
      now rewrite (at_end_false a t2 Hnl).
    + cbn [rmatch at_end String.length]. now rewrite Nat.sub_0_r, take_all.
  - split; reflexivity.
Qed.

Lemma suffix_of_refl (s : string) : suffix_of s s.
Proof. now exists EmptyString. Qed.

Lemma suffix_of_trans (s1 s2 s3 : string) :
  suffix_of s1 s2 -> suffix_of s2 s3 -> suffix_of s1 s3.
Proof.
  intros [p ->] [q ->]. exists (q ++ p)%string. now rewrite str_app_assoc.
Qed.

Lemma suffix_of_tail (a : ascii) (s : string) : suffix_of s (String a s).
Proof. now exists (String a EmptyString). Qed.

Section Soundness.

Variable m : captures.

Lemma reaches_suffix (k : cont) (s1 s2 : string) :
  suffix_of s1 s2 -> reaches m k s1 -> reaches m k s2.
Proof.
  intros H [s' [c' [Hs Hk]]]. exists s', c'. split; [| exact Hk].
  eapply suffix_of_trans; eassumption.
Qed.

Lemma greedy_rounds_reaches
  (body : string -> captures -> cont -> option captures) (k : cont) :
  (forall s c k', body s c k' = Some m -> reaches m k' s) ->
  forall fuel s c, greedy_rounds body k fuel s c = Some m -> reaches m k s.
Proof.
  intros Hbody. induction fuel as [| fuel IH]; intros s c H;
    rewrite greedy_rounds_eq in H; apply Hbody in H as [s' [c' [Hs H]]].
  - exists s', c'. auto.
  - destruct (String.length s' <? String.length s)%nat;
      [| exists s', c'; auto].
    destruct (greedy_rounds body k fuel s' c') as [m' |] eqn:E.
    + injection H as ->. eapply reaches_suffix; [exact Hs |]. eapply IH, E.
    + exists s', c'. auto.
Qed.

Lemma lazy_rounds_reaches
  (body : string -> captures -> cont -> option captures) (k : cont) :
  (forall s c k', body s c k' = Some m -> reaches m k' s) ->
  forall fuel s c, lazy_rounds body k fuel s c = Some m -> reaches m k s.
Proof.
  intros Hbody. induction fuel as [| fuel IH]; intros s c H;
    rewrite lazy_rounds_eq in H;
    destruct (k s c) as [m' |] eqn:E;
    try (injection H as ->; exists s, c; split;
         [apply suffix_of_refl | exact E]);
    [discriminate |].
  apply Hbody in H as [s' [c' [Hs H]]].
  destruct (String.length s' <? String.length s)%nat; [| discriminate].
  eapply reaches_suffix; [exact Hs |]. eapply IH, H.
Qed.

(** A successful match runs the rest of the pattern on a suffix of the
    subject. *)
Lemma rmatch_reaches (r : regex) :
  forall s c k, rmatch r s c k = Some m -> reaches m k s.
Proof.
  induction r as [cs | r1 IH1 r2 IH2 | r1 IH1 | r1 IH1 | r1 IH1 | n r1 IH1 |];
    intros s c k H.
  - destruct s as [| a s']; [discriminate |]. rewrite rmatch_chr in H.
    destruct (in_charset cs a); [| discriminate].
    exists s', c. split; [apply suffix_of_tail | exact H].
  - rewrite rmatch_cat in H. apply IH1 in H as [s1 [c1 [Hs1 H]]].
    eapply reaches_suffix; [exact Hs1 |]. eapply IH2, H.
  - cbn [rmatch] in H. destruct (rmatch r1 s c k) as [m' |] eqn:E.
    + injection H as ->. eapply IH1, E.
    + exists s, c. split; [apply suffix_of_refl | exact H].
  - rewrite rmatch_plus in H. eapply greedy_rounds_reaches; eauto.
  - rewrite rmatch_lazy in H. eapply lazy_rounds_reaches; eauto.
  - rewrite rmatch_group in H. apply IH1 in H as [s' [c' [Hs H]]].
    eexists s', _. split; [exact Hs | exact H].
  - cbn [rmatch] in H. destruct (at_end s); [| discriminate].
    exists s, c. split; [apply suffix_of_refl | exact H].
Qed.

End Soundness.

Lemma timestamp_fails (n5 n6 : nat) (s : string) (c : captures) (k : cont) :
  first_is isdigit s = false ->
  rmatch (Group n5 (Plus (Group n6 (Chr Digit +> Chr Digit +>
                                    Opt (Chr (Lit ":"))))))%re s c k = None.
Proof.
  intros H. rewrite rmatch_group, rmatch_plus, greedy_rounds_eq.
  now apply pair_round_fails.
Qed.

Lemma space_digit_suffix (s' s : string) :
  suffix_of s' s -> space_digit s' = true -> space_digit s = true.
Proof.
  intros [p ->] H. induction p as [| a p IH]; simpl; [exact H |].
  rewrite IH. apply orb_true_r.
Qed.

(** A match of the primary pattern shows a space right before a digit. *)
Lemma config_pattern_space_digit (s : string) (m : captures) :
  re_search CONFIG_PATTERN s = Some m -> space_digit s = true.
Proof.
  assert (G : forall s0, re_match CONFIG_PATTERN s0 = Some m ->
                         space_digit s0 = true).
  { intros s0 H. unfold re_match, CONFIG_PATTERN in H.
    do 6 (rewrite rmatch_cat in H;
          let s1 := fresh "s" in
          let c1 := fresh "c" in
          let Hs := fresh "Hs" in
          apply rmatch_reaches in H as [s1 [c1 [Hs H]]];
          apply (space_digit_suffix s1 _ Hs); clear Hs).
    rewrite rmatch_cat in H.
    match type of H with rmatch _ ?x _ _ = _ => destruct x as [| a s7] end;
      [discriminate |].
    rewrite rmatch_chr in H. cbn [in_charset] in H. simpl.
    destruct (Ascii.eqb a " "); [| discriminate].
    destruct (first_is isdigit s7) eqn:E; [reflexivity |].
    now rewrite timestamp_fails in H. }
  induction s as [| a s IH]; intros H; cbn [re_search] in H.
  - destruct (re_match CONFIG_PATTERN "") eqn:E; [| discriminate].
    injection H as ->. now apply G in E.
  - destruct (re_match CONFIG_PATTERN (String a s)) eqn:E.
    + injection H as ->. now apply G in E.
    + simpl. rewrite (IH H). apply orb_true_r.
Qed.

Lemma space_digit_no_digit (s : string) :
  all_chars (fun a => negb (isdigit a)) s = true -> space_digit s = false.
Proof.
  induction s as [| a s IH]; simpl; [reflexivity |].
  intros H. apply andb_true_iff in H as [_ H]. rewrite (IH H), orb_false_r.
  destruct s as [| b s']; simpl; [apply andb_false_r |].
  simpl in H. apply andb_true_iff in H as [Hb _].
  apply negb_true_iff in Hb. rewrite Hb. apply andb_false_r.
Qed.

(** A timestamp-first line whose title has no digit shows no space right
    before a digit. *)
Lemma alt_line_no_space_digit (run title : string) (b : ascii) :
  all_chars isdigit run = true ->
  all_chars (fun a => negb (isdigit a)) title = true ->
  is_bar b = true ->
  space_digit (run ++ separator b ++ title) = false.
Proof.
  intros Hrun Ht Hb. induction run as [| a run IH].
  - simpl. rewrite (bar_not_digit b Hb), (space_digit_no_digit title Ht).
    rewrite !andb_false_r, !orb_false_r. simpl.
    destruct title as [| x t]; [reflexivity |].
    simpl in Ht. apply andb_true_iff in Ht as [Hx _].
    now apply negb_true_iff in Hx.
  - simpl in Hrun. apply andb_true_iff in Hrun as [Ha Hrun].
    change (String a run ++ separator b ++ title)%string
      with (String a (run ++ separator b ++ title)).
    cbn [space_digit]. now rewrite (digit_not_space a Ha), (IH Hrun).
Qed.

Lemma config_pattern_no_match (s : string) :
  space_digit s = false -> re_search CONFIG_PATTERN s = None.
Proof.
  intros H. destruct (re_search CONFIG_PATTERN s) as [m |] eqn:E;
    [| reflexivity].
  apply config_pattern_space_digit in E. congruence.
Qed.

(** ** The groups of a match *)

Lemma keeps_refl (touched : list nat) (c : captures) : keeps touched [] c c.
Proof. repeat split; auto; intros n Hn; destruct Hn. Qed.

Lemma keeps_weaken (touched set : list nat) (c c' : captures) :
  keeps touched set c c' -> keeps touched [] c c'.
Proof.
  intros [H1 [_ H3]]. repeat split; auto; intros n Hn; destruct Hn.
Qed.

Lemma keeps_trans (t1 t2 s1 s2 : list nat) (c c1 c2 : captures) :
  keeps t1 s1 c c1 -> keeps t2 s2 c1 c2 ->
  keeps (t1 ++ t2) (s1 ++ s2) c c2.
Proof.
  intros [A1 [A2 A3]] [B1 [B2 B3]]. repeat split.
  - intros n Hn. rewrite B1, A1; [reflexivity | |];
      intros Hin; apply Hn, in_or_app; auto.
  - intros n Hn. apply in_app_or in Hn as [Hn | Hn]; auto.
  - auto.
Qed.

Lemma keeps_same (t s : list nat) (c c1 c2 : captures) :
  keeps t s c c1 -> keeps t s c1 c2 -> keeps t s c c2.
Proof.
  intros [A1 [A2 A3]] [B1 [B2 B3]]. repeat split; auto.
  intros n Hn. now rewrite B1, A1.
Qed.

Lemma keeps_group (n : nat) (v : string) (t s : list nat) (c c1 : captures) :
  keeps t s c c1 -> keeps (n :: t) (n :: s) c ((n, v) :: c1).
Proof.
  intros [A1 [A2 A3]]. repeat split.
  - intros n0 Hn0. simpl. destruct (Nat.eqb_spec n n0) as [-> | Hne].
    + exfalso. apply Hn0. now left.
    + apply A1. intros Hin. apply Hn0. now right.
  - intros n0 [-> | Hin]; simpl.
    + now rewrite Nat.eqb_refl.
    + destruct (Nat.eqb n n0); [discriminate | auto].
  - intros n0 Hn0. simpl. destruct (Nat.eqb n n0); [discriminate | auto].
Qed.

Section Groups.

Variable m : captures.

Lemma greedy_rounds_groups
  (body : string -> captures -> cont -> option captures) (k : cont)
  (t s : list nat) :
  (forall s0 c k', body s0 c k' = Some m -> accepts m t s k' c) ->
  forall fuel s0 c, greedy_rounds body k fuel s0 c = Some m -> accepts m t s k c.
Proof.
  intros Hbody. induction fuel as [| fuel IH]; intros s0 c H;
    rewrite greedy_rounds_eq in H; apply Hbody in H as [s' [c' [H Hk]]].
  - exists s', c'. auto.
  - destruct (String.length s' <? String.length s0)%nat;
      [| exists s', c'; auto].
    destruct (greedy_rounds body k fuel s' c') as [m' |] eqn:E.
    + injection H as ->. apply IH in E as [s2 [c2 [E Hk2]]].
      exists s2, c2. split; [exact E |]. eapply keeps_same; eassumption.
    + exists s', c'. auto.
Qed.

Lemma lazy_rounds_groups
  (body : string -> captures -> cont -> option captures) (k : cont)
  (t s : list nat) :
  (forall s0 c k', body s0 c k' = Some m -> accepts m t s k' c) ->
  forall fuel s0 c, lazy_rounds body k fuel s0 c = Some m -> accepts m t [] k c.
Proof.
  intros Hbody. induction fuel as [| fuel IH]; intros s0 c H;
    rewrite lazy_rounds_eq in H;
    destruct (k s0 c) as [m' |] eqn:E;
    try (injection H as ->; exists s0, c; split;
         [exact E | apply keeps_refl]);
    [discriminate |].
  apply Hbody in H as [s' [c' [H Hk]]].
  destruct (String.length s' <? String.length s0)%nat; [| discriminate].
  apply IH in H as [s2 [c2 [H Hk2]]].
  exists s2, c2. split; [exact H |].
  eapply keeps_same; [eapply keeps_weaken; eassumption | eassumption].
Qed.

Lemma rmatch_groups (r : regex) :
  forall s c k,
    rmatch r s c k = Some m -> accepts m (groups_of r) (sure_groups r) k c.
Proof.
  induction r as [cs | r1 IH1 r2 IH2 | r1 IH1 | r1 IH1 | r1 IH1 | n r1 IH1 |];
    intros s c k H; cbn [groups_of sure_groups].
  - destruct s as [| a s']; [discriminate |]. rewrite rmatch_chr in H.
    destruct (in_charset cs a); [| discriminate].
    exists s', c. split; [exact H | apply keeps_refl].
  - rewrite rmatch_cat in H. apply IH1 in H as [s1 [c1 [H K1]]].
    apply IH2 in H as [s2 [c2 [H K2]]].
    exists s2, c2. split; [exact H | eapply keeps_trans; eassumption].
  - cbn [rmatch] in H. destruct (rmatch r1 s c k) as [m' |] eqn:E.
    + injection H as ->. apply IH1 in E as [s1 [c1 [E K1]]].
      exists s1, c1. split; [exact E | eapply keeps_weaken; eassumption].
    + exists s, c. split; [exact H | apply keeps_refl].
  - rewrite rmatch_plus in H. eapply greedy_rounds_groups; eauto.
  - rewrite rmatch_lazy in H. eapply lazy_rounds_groups; eauto.
  - rewrite rmatch_group in H. apply IH1 in H as [s' [c' [H K1]]].
    eexists s', _. split; [exact H | now apply keeps_group].
  - cbn [rmatch] in H. destruct (at_end s); [| discriminate].
    exists s, c. split; [exact H | apply keeps_refl].
Qed.

(** What [\d+] consumes is a non-empty run of digits. *)
Lemma digits_rounds_consumed (k : cont) :
  forall fuel s c,
    greedy_rounds (rmatch (Chr Digit)) k fuel s c = Some m ->
    exists w s', is_digits w = true /\ s = (w ++ s')%string /\ k s' c = Some m.
Proof.
  induction fuel as [| fuel IH]; intros s c H; rewrite greedy_rounds_eq in H;
    (destruct s as [| a s1]; [discriminate |]);
    rewrite rmatch_chr in H; cbn [in_charset] in H;
    destruct (isdigit a) eqn:Ha; try discriminate.
  - exists (String a EmptyString), s1. unfold is_digits. simpl.
    now rewrite Ha.
  - destruct (String.length s1 <? String.length (String a s1))%nat;
      [| exists (String a EmptyString), s1; unfold is_digits; simpl;
         now rewrite Ha].
    destruct (greedy_rounds (rmatch (Chr Digit)) k fuel s1 c) as [m' |] eqn:E.
    + injection H as ->. apply IH in E as [w [s' [Hw [-> Hk]]]].
      exists (String a w), s'. split; [| split; [reflexivity | exact Hk]].
      unfold is_digits in *. simpl. rewrite Ha.
      now apply andb_true_iff in Hw as [_ ->].
    + exists (String a EmptyString), s1. unfold is_digits. simpl.
      now rewrite Ha.
Qed.

End Groups.

Lemma re_search_sound (r : regex) (s : string) (m : captures) :
  re_search r s = Some m ->
  exists s0, suffix_of s0 s /\ re_match r s0 = Some m.
Proof.
  induction s as [| a s IH]; intros H; cbn [re_search] in H.
  - destruct (re_match r "") eqn:E; [| discriminate].
    injection H as ->. exists EmptyString. split; [apply suffix_of_refl | exact E].
  - destruct (re_match r (String a s)) eqn:E.
    + injection H as ->. exists (String a s).
      split; [apply suffix_of_refl | exact E].
    + destruct (IH H) as [s0 [Hs0 Hm]]. exists s0. split; [| exact Hm].
      eapply suffix_of_trans; [exact Hs0 | apply suffix_of_tail].
Qed.

(** In a match of the primary pattern group 1 is a run of digits and the
    groups 3 and 5 took part. *)
Lemma config_pattern_groups (s : string) (m : captures) :
  re_search CONFIG_PATTERN s = Some m ->
  exists g1 g3 g5,
    is_digits g1 = true /\
    group m 1 = Some g1 /\ group m 3 = Some g3 /\ group m 5 = Some g5.
Proof.
  intros H. apply re_search_sound in H as [s0 [_ H]].
  unfold re_match, CONFIG_PATTERN in H.
  rewrite rmatch_cat in H. apply rmatch_groups in H as [s1 [c1 [H _]]].
  rewrite rmatch_cat, rmatch_group, rmatch_plus in H.
  apply digits_rounds_consumed in H as [w [s2 [Hw [-> H]]]].
  rewrite take_consumed in H.
  apply rmatch_groups in H as [s3 [c3 [H [K1 [K2 _]]]]].
  injection H as ->. cbn [groups_of sure_groups app] in K1, K2.
  exists w.
  destruct (group m 3) as [g3 |] eqn:G3;
    [| exfalso; apply (K2 3%nat); [simpl; tauto | exact G3]].
  destruct (group m 5) as [g5 |] eqn:G5;
    [| exfalso; apply (K2 5%nat); [simpl; tauto | exact G5]].
  exists g3, g5. repeat split; try assumption.
  rewrite K1; [simpl; reflexivity |]. simpl. intuition discriminate.
Qed.

(** In a match of the alternate pattern the groups 1 and 4 took part. *)
Lemma alt_pattern_groups (s : string) (m : captures) :
  re_search ALT_CONFIG_PATTERN s = Some m ->
  exists g1 g4, group m 1 = Some g1 /\ group m 4 = Some g4.
Proof.
  intros H. apply re_search_sound in H as [s0 [_ H]].
  unfold re_match in H.
  apply rmatch_groups in H as [s3 [c3 [H [_ [K2 _]]]]].
  injection H as ->. cbn [ALT_CONFIG_PATTERN groups_of sure_groups app] in K2.
  destruct (group m 1) as [g1 |] eqn:G1;
    [| exfalso; apply (K2 1%nat); [simpl; tauto | exact G1]].
  destruct (group m 4) as [g4 |] eqn:G4;
    [| exfalso; apply (K2 4%nat); [simpl; tauto | exact G4]].
  eauto.
Qed.


(** ** The claim on the classifier *)

(** C7 (priority of the primary syntax).  On every line, when the search
    for the primary pattern succeeds, its groups 1, 3 and 5 took part in the
    match, group 1 is a run of digits, and the triple is the number group 1
    denotes with the texts of the groups 3 and 5, whatever the alternate
    pattern does on the line.  The groups 4 and 1 of the alternate pattern
    are read, with the line number as track number, only when the primary
    search fails; when both searches fail the line is a parse failure.
    The line "01 - 02 - 03" matches both patterns and is read under the
    primary one. *)
Theorem C7_primary_first (line_number : Z) (line : string) :
  (forall m,
     re_search CONFIG_PATTERN line = Some m ->
     exists g1 g3 g5,
       is_digits g1 = true /\
       group m 1 = Some g1 /\ group m 3 = Some g3 /\ group m 5 = Some g5 /\
       extract_fields line_number line = inr (digits_value g1, g3, g5)) /\
  (forall m,
     re_search CONFIG_PATTERN line = None ->
     re_search ALT_CONFIG_PATTERN line = Some m ->
     exists g1 g4,
       group m 1 = Some g1 /\ group m 4 = Some g4 /\
       extract_fields line_number line = inr (line_number, g4, g1)) /\
  (re_search CONFIG_PATTERN line = None ->
   re_search ALT_CONFIG_PATTERN line = None ->
   extract_fields line_number line =
   inl (LineParseFailure line_number line)) /\
  (re_search CONFIG_PATTERN "01 - 02 - 03" <> None /\
   re_search ALT_CONFIG_PATTERN "01 - 02 - 03" <> None /\
   extract_fields line_number "01 - 02 - 03" = inr (1, "02", "03")).
Proof.
  unfold extract_fields, group_str. split; [| split; [| split]].
  - intros m H.
    destruct (config_pattern_groups line m H) as [g1 [g3 [g5 [D [G1 [G3 G5]]]]]].
    exists g1, g3, g5. rewrite H, G1, G3, G5, !bind_ret, (py_int_digits g1 D).
    repeat split; solve [assumption | reflexivity].
  - intros m Hp Ha.
    destruct (alt_pattern_groups line m Ha) as [g1 [g4 [G1 G4]]].
    exists g1, g4. rewrite Hp, Ha, G1, G4. repeat split; reflexivity.
  - intros Hp Ha. rewrite Hp, Ha. reflexivity.
  - repeat split; vm_compute; (discriminate || reflexivity).
Qed.

(** ** The claim on colon-less timestamps *)

Section Colonless.

Variable album_ : string.
Variable composer_ : option string.
Variable total_discs_ disc_number_ : option Z.
Variable artist_ : option string.

(** C10 (colon-less timestamps).  Take a number [num], a title without
    digit or line feed, a separator [" - "] or [" | "] and a non-empty,
    colon-less run [run] of 2-digit pairs.  The number-first line
    [num sep title sep run] is read under the primary pattern and the
    timestamp-first line [run sep title] under the alternate one, both
    without error; in both the whole of [run] is the timestamp token; the
    token has no colon, so it splits into the one group [run], and the new
    descriptor starts at the number the whole run denotes.  The line
    "1 - Intro - 0203" starts its track at 203 seconds. *)
Theorem C10_colonless_timestamp (line_number : Z) (st : store)
  (line1 line2 num title run : string) (b1 b2 : ascii) :
  is_digits num = true ->
  is_digit_pairs run = true ->
  all_chars (fun a => negb (isdigit a)) title = true ->
  all_chars (fun a => negb (Ascii.eqb a "010")) title = true ->
  is_bar b1 = true -> is_bar b2 = true ->
  strip line1 = (num ++ separator b1 ++ title ++ separator b2 ++ run)%string ->
  strip line2 = (run ++ separator b1 ++ title)%string ->
  extract_fields line_number (strip line1) =
    inr (digits_value num, title, run) /\
  extract_fields line_number (strip line2) = inr (line_number, title, run) /\
  split ":" run = [run] /\
  time_stamp_to_seconds run = inr (digits_value run) /\
  loop_body album_ composer_ total_discs_ disc_number_ artist_
    line_number line1 st =
    inr (append_track
           {| name := strip title; track_number := digits_value num;
              track_start := digits_value run; track_end := None;
              album := album_; artist := artist_; composer := composer_;
              total_discs := total_discs_; disc_number := disc_number_ |}
           (close_last (Some (digits_value run)) st)) /\
  loop_body album_ composer_ total_discs_ disc_number_ artist_
    line_number line2 st =
    inr (append_track
           {| name := strip title; track_number := line_number;
              track_start := digits_value run; track_end := None;
              album := album_; artist := artist_; composer := composer_;
              total_discs := total_discs_; disc_number := disc_number_ |}
           (close_last (Some (digits_value run)) st)) /\
  parse_line line_number "1 - Intro - 0203" = inr (1, "Intro", 203).
Proof.
  intros Hnum Hrun Hnd Hnl Hb1 Hb2 H1 H2.
  pose proof (is_digit_pairs_digits run Hrun) as Hdigits.
  assert (X1 : extract_fields line_number (strip line1) =
               inr (digits_value num, title, run)).
  { destruct (config_pattern_match num title run b1 b2 Hnum Hnd Hnl Hrun
                Hb1 Hb2) as [m [Hm [G1 [G3 G5]]]].
    unfold extract_fields, group_str. rewrite H1, Hm, G1, G3, G5.
    rewrite !bind_ret, (py_int_digits num Hnum). reflexivity. }
  assert (X2 : extract_fields line_number (strip line2) =
               inr (line_number, title, run)).
  { destruct (alt_pattern_match run title b1 Hrun Hnl Hb1)
      as [m [Hm [G1 G4]]].
    unfold extract_fields, group_str. rewrite H2.
    rewrite config_pattern_no_match
      by (apply alt_line_no_space_digit;
          [apply is_digits_all, Hdigits | exact Hnd | exact Hb1]).
    rewrite (re_search_here _ _ _ Hm), G1, G4. reflexivity. }
  assert (S : split ":" run = [run])
    by (apply split_no_sep, digits_no_colon, is_digits_all, Hdigits).
  assert (T : time_stamp_to_seconds run = inr (digits_value run)).
  { unfold time_stamp_to_seconds. rewrite S. simpl map_result.
    now rewrite (py_int_digits run Hdigits). }
  assert (B1 : blank line1 = false).
  { unfold blank. rewrite H1.
    destruct (is_digits_inv num Hnum) as [a [num' [-> _]]]. reflexivity. }
  assert (B2 : blank line2 = false).
  { unfold blank. rewrite H2.
    destruct (is_digits_inv run Hdigits) as [a [run' [-> _]]]. reflexivity. }
  repeat split; try assumption.
  - rewrite loop_body_step, B1. unfold parse_line. rewrite X1, bind_ret.
    cbv beta iota. rewrite T. reflexivity.
  - rewrite loop_body_step, B2. unfold parse_line. rewrite X2, bind_ret.
    cbv beta iota. rewrite T. reflexivity.
Qed.

End Colonless.

(** ** Instances of the theorems *)

Lemma example_config_ok : config_ok example_lines.
Proof.
  intros i line Hi.
  destruct i as [| [| [| i]]]; simpl in Hi;
    try (injection Hi as <-; right; eexists; vm_compute; reflexivity).
  destruct i; discriminate.
Qed.

Lemma C1_witness :
  exists tracks,
    process_conf "config.txt" (Some example_lines) "Album" (Some 720)
      None None None None = inr tracks /\
    tracks <> [] /\
    Forall (fun t => track_end t <> None) tracks /\
    contiguous tracks /\
    exists t, nth_error tracks (pred (length tracks)) = Some t /\
              track_end t = Some 720.
Proof.
  apply (C1_boundary_completeness "config.txt" "Album" None None None None
           example_lines 720).
  - exact example_config_ok.
  - exists "1 - Intro - 00:00". split; [now left | reflexivity].
Defined.

Lemma C2_witness :
  time_stamp_to_seconds "04" = inr 4 /\
  time_stamp_to_seconds "03:04" = inr 184 /\
  time_stamp_to_seconds "02:03:04" = inr 7384 /\
  time_stamp_to_seconds "1:02:03:04" = inr 93784 /\
  time_stamp_to_seconds "90:00" = inr 5400 /\
  time_stamp_to_seconds "02:03" = inr 123 /\
  time_stamp_to_seconds "01:02:03" = inr 3723 /\
  time_stamp_to_seconds "59" = inr 59 /\
  time_stamp_to_seconds "1:02:03:04" = inr 93784.
Proof.
  exact (C2_positional_sum "1" "02" "03" "04" eq_refl eq_refl eq_refl eq_refl).
Defined.

Lemma C3_witness :
  exists tracks,
    process_conf "config.txt" (Some [""; "00:00 Intro"; "03:15 - Main"])
      "Album" None None None None None = inr tracks /\
    (exists t,
       nth_error tracks
         (nonblank_count (firstn 1 [""; "00:00 Intro"; "03:15 - Main"])) =
         Some t /\
       track_number t = 2) /\
    (Forall (fun l => blank l = false)
       (firstn 1 [""; "00:00 Intro"; "03:15 - Main"]) ->
     nonblank_count (firstn 1 [""; "00:00 Intro"; "03:15 - Main"]) = 1%nat).
Proof.
  eexists. split; [vm_compute; reflexivity |].
  apply (C3_alternate_track_number "config.txt" "Album" None None None None
           [""; "00:00 Intro"; "03:15 - Main"] None 1 "00:00 Intro");
    vm_compute; reflexivity.
Defined.

(** C3, as stated, fails: the line "00:00 Intro" is read under the
    alternate pattern and is the first non-empty line of the file, and its
    descriptor carries the track number 2, the number of the line in the
    file. *)
Lemma C3_counterexample :
  exists tracks t,
    process_conf "config.txt" (Some [""; "00:00 Intro"]) "Album" None
      None None None None = inr tracks /\
    re_search CONFIG_PATTERN (strip "00:00 Intro") = None /\
    re_search ALT_CONFIG_PATTERN (strip "00:00 Intro") <> None /\
    nonblank_count (firstn 1 [""; "00:00 Intro"]) = 0%nat /\
    nth_error tracks 0 = Some t /\
    track_number t = 2 /\
    track_number t <> 1.
Proof.
  eexists. eexists. split; [vm_compute; reflexivity |].
  repeat split; try (vm_compute; reflexivity); vm_compute; discriminate.
Qed.

Lemma C4_witness :
  (exists e,
     process_conf "config.txt"
       (Some ["1 - Intro - 00:00"; "  garbage  "; "3 - Outro - 10:40"])
       "Album" (Some 720) None None None None = inl e) /\
  process_conf "config.txt"
    (Some ["1 - Intro - 00:00"; "  garbage  "; "3 - Outro - 10:40"])
    "Album" (Some 720) None None None None =
  inl (LineParseFailure 2 "garbage").
Proof.
  destruct (C4_failure_locality "config.txt" "Album" None None None None
              ["1 - Intro - 00:00"; "  garbage  "; "3 - Outro - 10:40"]
              (Some 720) 1 "  garbage  " eq_refl eq_refl eq_refl eq_refl)
    as [H1 H2].
  split; [exact H1 |]. apply H2.
  intros j l Hj Hl. destruct j as [| j]; [| lia].
  injection Hl as <-. right. eexists. vm_compute. reflexivity.
Defined.

(** C4, as stated, fails twice.  In the first config the second line
    matches neither pattern, yet parsing fails on the first line, which
    matches the primary pattern and has five timestamp groups, with the
    failure of the conversion.  In the second config the failure carries
    the stripped text of the line, not its raw text. *)
Lemma C4_counterexample :
  (re_search CONFIG_PATTERN "garbage" = None /\
   re_search ALT_CONFIG_PATTERN "garbage" = None /\
   re_search CONFIG_PATTERN "1 - A - 00:00:00:00:00" <> None /\
   process_conf "config.txt" (Some ["1 - A - 00:00:00:00:00"; "garbage"])
     "Album" (Some 720) None None None None =
     inl (UnsupportedTimestampFormat "00:00:00:00:00") /\
   process_conf "config.txt" (Some ["1 - A - 00:00:00:00:00"; "garbage"])
     "Album" (Some 720) None None None None <>
     inl (LineParseFailure 2 "garbage")) /\
  (process_conf "config.txt" (Some ["  garbage  "])
     "Album" (Some 720) None None None None =
     inl (LineParseFailure 1 "garbage") /\
   process_conf "config.txt" (Some ["  garbage  "])
     "Album" (Some 720) None None None None <>
     inl (LineParseFailure 1 "  garbage  ")).
Proof.
  repeat split; try (vm_compute; reflexivity); vm_compute; discriminate.
Qed.

(** C6, as stated, fails on the empty string, which splits into one empty
    group: read as a string of no group it should fail with the
    unsupported-format error, read as a string of one group it should not
    fail; it fails with the error of [int()].  A string of one group that
    is no number fails too, and a string of five groups of which one is no
    number fails with the error of [int()]. *)
Lemma C6_counterexample :
  split ":" "" = [""] /\
  time_stamp_to_seconds "" = inl (InvalidLiteral "") /\
  time_stamp_to_seconds "" <> inl (UnsupportedTimestampFormat "") /\
  length (split ":" "ab") = 1%nat /\
  time_stamp_to_seconds "ab" = inl (InvalidLiteral "ab") /\
  length (split ":" "1:2:x:4:5") = 5%nat /\
  time_stamp_to_seconds "1:2:x:4:5" = inl (InvalidLiteral "x").
Proof.
  repeat split; try (vm_compute; reflexivity); vm_compute; discriminate.
Qed.

Lemma C9_witness :
  exists st1 st2,
    loop "Album" None None None None 1
      ["1 - Intro - 00:00"; "2 - Main - 03:15"] empty_store = inr st1 /\
    loop "Album" None None None None 3 ["3 - Outro - 10:40"] st1 = inr st2 /\
    (tracks st1 <> [] -> one_open (tracks st1)) /\
    (forall i t,
       nth_error (tracks st1) i = Some t ->
       writes_to i (writes st1) =
       match track_end t with
       | Some v => [Some v]
       | None => []
       end) /\
    (forall i t,
       nth_error (tracks st1) i = Some t ->
       exists t',
         nth_error (tracks (close_last (Some 720) st2)) i = Some t' /\
         same_but_track_end t t' /\
         (track_end t <> None -> t' = t)) /\
    (forall i t,
       nth_error (tracks (close_last (Some 720) st2)) i = Some t ->
       writes_to i (writes (close_last (Some 720) st2)) = [track_end t] /\
       track_end t =
       match nth_error (tracks (close_last (Some 720) st2)) (S i) with
       | Some t' => Some (track_start t')
       | None => Some 720
       end).
Proof.
  eexists. eexists.
  split; [vm_compute; reflexivity |]. split; [vm_compute; reflexivity |].
  apply (C9_one_open_one_write "Album" (Some 720) None None None None
           ["1 - Intro - 00:00"; "2 - Main - 03:15"] ["3 - Outro - 10:40"]);
    vm_compute; reflexivity.
Defined.

Lemma C10_witness :
  extract_fields 1 (strip "  1 - Intro - 0203  ") = inr (1, "Intro", "0203") /\
  extract_fields 1 (strip "0203 - Intro") = inr (1, "Intro", "0203") /\
  split ":" "0203" = ["0203"] /\
  time_stamp_to_seconds "0203" = inr 203 /\
  loop_body "Album" None None None None 1 "  1 - Intro - 0203  " empty_store =
    inr (append_track
           {| name := "Intro"; track_number := 1; track_start := 203;
              track_end := None; album := "Album"; artist := None;
              composer := None; total_discs := None; disc_number := None |}
           (close_last (Some 203) empty_store)) /\
  loop_body "Album" None None None None 1 "0203 - Intro" empty_store =
    inr (append_track
           {| name := "Intro"; track_number := 1; track_start := 203;
              track_end := None; album := "Album"; artist := None;
              composer := None; total_discs := None; disc_number := None |}
           (close_last (Some 203) empty_store)) /\
  parse_line 1 "1 - Intro - 0203" = inr (1, "Intro", 203).
Proof.
  exact (C10_colonless_timestamp "Album" None None None None 1 empty_store
           "  1 - Intro - 0203  " "0203 - Intro" "1" "Intro" "0203" "-" "-"
           eq_refl eq_refl eq_refl eq_refl eq_refl eq_refl eq_refl eq_refl).
Defined.

(** * The exports, [main], and more on the parser *)

(** ** File names *)

Lemma re_sub_class_clean (cs : charset) (s : string) :
  all_chars (fun a => negb (in_charset cs a)) (re_sub_class cs s) = true.
Proof.
  induction s as [| a s IH]; simpl; [reflexivity |].
  destruct (in_charset cs a) eqn:E; [exact IH |]. simpl. now rewrite E, IH.
Qed.

Lemma re_sub_class_app (cs : charset) (s1 s2 : string) :
  re_sub_class cs (s1 ++ s2) = (re_sub_class cs s1 ++ re_sub_class cs s2)%string.
Proof.
  induction s1 as [| a s1 IH]; simpl; [reflexivity |].
  rewrite IH. now destruct (in_charset cs a).
Qed.

Lemma re_sub_class_id (cs : charset) (s : string) :
  re_sub_class cs s = s <->
  all_chars (fun a => negb (in_charset cs a)) s = true.
Proof.
  split.
  - intros H. rewrite <- H. apply re_sub_class_clean.
  - induction s as [| a s IH]; simpl; [reflexivity |].
    intros H. apply andb_true_iff in H as [Ha Hs].
    apply negb_true_iff in Ha. now rewrite Ha, (IH Hs).
Qed.

Lemma all_chars_app (p : ascii -> bool) (s1 s2 : string) :
  all_chars p (s1 ++ s2) = all_chars p s1 && all_chars p s2.
Proof.
  induction s1 as [| a s1 IH]; simpl; [reflexivity |].
  now rewrite IH, andb_assoc.
Qed.

(** X1: every export goes to [output_path] under a name that ends in
    ".mp3" and holds none of the characters of the class of line 115, so
    no path separator. *)
Theorem X1_export_names_clean (tracks : list TrackInfo) (audio_len : Z)
  (output_path : string) (x : exported) :
  In x (process_tracks tracks audio_len output_path) ->
  out_dir x = output_path /\
  all_chars (fun a => negb (in_charset FORBIDDEN a)) (out_file x) = true /\
  exists stem, out_file x = (stem ++ ".mp3")%string.
Proof.
  unfold process_tracks. intros H. apply in_map_iff in H as [t [<- _]].
  cbn [out_dir out_file export_track]. split; [reflexivity |].
  split; [| eauto].
  rewrite all_chars_app. unfold sanitized_track_name.
  now rewrite re_sub_class_clean.
Qed.

(** X2: sanitising works character by character: it distributes over
    concatenation, sanitising twice is sanitising once, and a name is left
    as it is exactly when it holds no character of the class. *)
Theorem X2_sanitize_algebra (n1 n2 : string) :
  sanitized_track_name (n1 ++ n2) =
    (sanitized_track_name n1 ++ sanitized_track_name n2)%string /\
  sanitized_track_name (sanitized_track_name n1) = sanitized_track_name n1 /\
  (sanitized_track_name n1 = n1 <->
   all_chars (fun a => negb (in_charset FORBIDDEN a)) n1 = true).
Proof.
  unfold sanitized_track_name. split; [apply re_sub_class_app |].
  split; [| apply re_sub_class_id].
  apply re_sub_class_id, re_sub_class_clean.
Qed.

Ltac tag_cases track :=
  unfold set_tags, tag_if_str, tag_if_int;
  destruct (composer track) as [[| ? ?] |];
  destruct (artist track) as [[| ? ?] |];
  destruct (disc_number track) as [? |];
  destruct (total_discs track) as [? |];
  repeat match goal with
    | |- context [(?v =? 0)] => destruct (Z.eqb_spec v 0)
    end;
  try subst; cbn [is_empty app].

Lemma tag_of_tracktitle (track : TrackInfo) :
  tag_of "tracktitle" (set_tags track) = Some (TagStr (name track)).
Proof. tag_cases track; reflexivity. Qed.

(** X3: two tracks whose names differ by one character of the class are
    exported under the same file name in the same directory, whatever
    their other fields, while their title tags differ. *)
Theorem X3_name_collision (audio_len : Z) (output_path : string)
  (t1 t2 : TrackInfo) (before after : string) (x : ascii) :
  in_charset FORBIDDEN x = true ->
  name t1 = (before ++ String x after)%string ->
  name t2 = (before ++ after)%string ->
  out_file (export_track audio_len output_path t1) =
    out_file (export_track audio_len output_path t2) /\
  out_dir (export_track audio_len output_path t1) =
    out_dir (export_track audio_len output_path t2) /\
  tag_of "tracktitle" (out_tags (export_track audio_len output_path t1)) <>
    tag_of "tracktitle" (out_tags (export_track audio_len output_path t2)).
Proof.
  intros Hx H1 H2. cbn [out_dir out_file out_tags export_track].
  unfold sanitized_track_name.
  rewrite !tag_of_tracktitle, H1, H2, !re_sub_class_app.
  cbn [re_sub_class]. rewrite Hx.
  split; [reflexivity |]. split; [reflexivity |].
  intros H. injection H as H.
  assert (L : String.length (before ++ String x after)
              = String.length (before ++ after)) by now rewrite H.
  rewrite !str_length_app in L. simpl in L. lia.
Qed.

Lemma tag_of_set_tags (track : TrackInfo) :
  tag_of "album" (set_tags track) = Some (TagStr (album track)) /\
  tag_of "tracknumber" (set_tags track) = Some (TagInt (track_number track)) /\
  tag_of "tracktitle" (set_tags track) = Some (TagStr (name track)) /\
  tag_of "composer" (set_tags track) =
    (if truthy_str (composer track)
     then option_map TagStr (composer track) else None) /\
  tag_of "artist" (set_tags track) =
    (if truthy_str (artist track)
     then option_map TagStr (artist track) else None) /\
  tag_of "discnumber" (set_tags track) =
    (if truthy_int (disc_number track)
     then option_map TagInt (disc_number track) else None) /\
  tag_of "totaldiscs" (set_tags track) =
    (if truthy_int (total_discs track)
     then option_map TagInt (total_discs track) else None).
Proof.
  unfold truthy_str, truthy_int.
  tag_cases track;
    repeat match goal with
      | |- context [(?v =? 0)] =>
          first [ replace (v =? 0) with false
                    by (symmetry; apply Z.eqb_neq; assumption)
                | rewrite Z.eqb_refl ]
      end;
    cbn [is_empty negb option_map];
    repeat split; reflexivity.
Qed.

(** X4: the tags of an export.  The album, the track number and the
    title are always assigned, the title with the name as parsed, not the
    sanitised one.  The composer and the artist are assigned exactly when
    they are given and not empty, the disc number and the number of discs
    exactly when they are given and not 0.  No key is assigned twice. *)
Theorem X4_tags_written (track : TrackInfo) :
  tag_of "album" (set_tags track) = Some (TagStr (album track)) /\
  tag_of "tracknumber" (set_tags track) = Some (TagInt (track_number track)) /\
  tag_of "tracktitle" (set_tags track) = Some (TagStr (name track)) /\
  tag_of "composer" (set_tags track) =
    (if truthy_str (composer track)
     then option_map TagStr (composer track) else None) /\
  tag_of "artist" (set_tags track) =
    (if truthy_str (artist track)
     then option_map TagStr (artist track) else None) /\
  tag_of "discnumber" (set_tags track) =
    (if truthy_int (disc_number track)
     then option_map TagInt (disc_number track) else None) /\
  tag_of "totaldiscs" (set_tags track) =
    (if truthy_int (total_discs track)
     then option_map TagInt (total_discs track) else None) /\
  NoDup (map fst (set_tags track)).
Proof.
  destruct (tag_of_set_tags track) as [T1 [T2 [T3 [T4 [T5 [T6 T7]]]]]].
  repeat (split; [assumption |]).
  tag_cases track; cbn [map fst]; repeat constructor; simpl;
    intuition discriminate.
Qed.

(** ** The timestamp token of a matched line *)

Section Token.

Variable n : nat.
Variable m : captures.

Local Abbreviation pair_re :=
  (Group n (Chr Digit +> Chr Digit +> Opt (Chr (Lit ":"))))%re.

(** A round of the timestamp loop consumes two digits, with or without a
    colon behind them. *)
Lemma pair_round_inv (s : string) (c : captures) (k : cont) :
  rmatch pair_re s c k = Some m ->
  exists a b rest,
    s = String a (String b rest) /\ isdigit a = true /\ isdigit b = true /\
    ((exists rest' v, rest = String ":" rest' /\ k rest' ((n, v) :: c) = Some m)
     \/ exists v, k rest ((n, v) :: c) = Some m).
Proof.
  intros H. rewrite rmatch_group, rmatch_cat in H.
  destruct s as [| a [| b rest]]; try discriminate.
  - rewrite rmatch_chr in H. cbn [in_charset] in H.
    destruct (isdigit a); discriminate.
  - rewrite rmatch_chr in H. cbn [in_charset] in H.
    destruct (isdigit a) eqn:Ha; [| discriminate].
    cbv beta in H. rewrite rmatch_cat, rmatch_chr in H. cbn [in_charset] in H.
    destruct (isdigit b) eqn:Hb; [| discriminate].
    cbv beta in H. exists a, b, rest.
    split; [reflexivity |]. split; [exact Ha |]. split; [exact Hb |].
    cbn [rmatch] in H.
    destruct rest as [| x rest']; [right; eexists; exact H |].
    cbn [in_charset] in H.
    destruct (Ascii.eqb_spec x ":") as [-> | Hx].
    + match type of H with
      | match ?o with _ => _ end = _ => destruct o as [m' |] eqn:E
      end.
      * injection H as ->. left. eexists _, _. split; [reflexivity | exact E].
      * right. eexists. exact H.
    + right. eexists. exact H.
Qed.

Lemma pairs_rounds_consumed (k : cont) :
  forall fuel s c,
    greedy_rounds (rmatch pair_re) k fuel s c = Some m ->
    exists w s' c',
      timestamp_token w /\ s = (w ++ s')%string /\ k s' c' = Some m /\
      forall j, j <> n -> group c' j = group c j.
Proof.
  assert (G : forall v c j, j <> n -> group ((n, v) :: c) j = group c j).
  { intros v c j Hj. simpl. destruct (Nat.eqb_spec n j); [congruence | reflexivity]. }
  induction fuel as [| fuel IH]; intros s c H; rewrite greedy_rounds_eq in H;
    apply pair_round_inv in H
      as [a [b [rest [-> [Ha [Hb [[rest' [v [-> H]]] | [v H]]]]]]]].
  - exists (String a (String b (String ":" EmptyString))), rest', ((n, v) :: c).
    repeat split; auto. now constructor.
  - exists (String a (String b EmptyString)), rest, ((n, v) :: c).
    repeat split; auto. now constructor.
  - destruct (_ <? _)%nat;
      [| exists (String a (String b (String ":" EmptyString))), rest',
           ((n, v) :: c); repeat split; auto; now constructor].
    destruct (greedy_rounds (rmatch pair_re) k fuel rest' ((n, v) :: c))
      as [m' |] eqn:E.
    + injection H as ->. apply IH in E as [w [s' [c' [Hw [-> [Hk Hg]]]]]].
      exists (String a (String b (String ":" w))), s', c'.
      repeat split; auto; [now constructor |].
      intros j Hj. now rewrite Hg, G.
    + exists (String a (String b (String ":" EmptyString))), rest',
        ((n, v) :: c). repeat split; auto. now constructor.
  - destruct (_ <? _)%nat;
      [| exists (String a (String b EmptyString)), rest, ((n, v) :: c);
         repeat split; auto; now constructor].
    destruct (greedy_rounds (rmatch pair_re) k fuel rest ((n, v) :: c))
      as [m' |] eqn:E.
    + injection H as ->. apply IH in E as [w [s' [c' [Hw [-> [Hk Hg]]]]]].
      exists (String a (String b w)), s', c'.
      repeat split; auto; [now constructor |].
      intros j Hj. now rewrite Hg, G.
    + exists (String a (String b EmptyString)), rest, ((n, v) :: c).
      repeat split; auto. now constructor.
Qed.

End Token.

(** Group 5 of a match of the primary pattern is a timestamp token. *)
Lemma config_pattern_token (s : string) (m : captures) :
  re_search CONFIG_PATTERN s = Some m ->
  exists w, group m 5 = Some w /\ timestamp_token w.
Proof.
  intros H. apply re_search_sound in H as [s0 [_ H]].
  unfold re_match, CONFIG_PATTERN in H.
  do 7 (rewrite rmatch_cat in H;
        let s1 := fresh "s" in
        let c1 := fresh "c" in
        apply rmatch_reaches in H as [s1 [c1 [_ H]]]).
  rewrite rmatch_group, rmatch_plus in H.
  apply pairs_rounds_consumed in H as [w [s' [c' [Hw [-> [H _]]]]]].
  rewrite take_consumed in H. injection H as <-.
  exists w. split; [reflexivity | exact Hw].
Qed.

(** Group 1 of a match of the alternate pattern is a timestamp token. *)
Lemma alt_pattern_token (s : string) (m : captures) :
  re_search ALT_CONFIG_PATTERN s = Some m ->
  exists w, group m 1 = Some w /\ timestamp_token w.
Proof.
  intros H. apply re_search_sound in H as [s0 [_ H]].
  unfold re_match, ALT_CONFIG_PATTERN in H.
  rewrite rmatch_cat, rmatch_group, rmatch_plus in H.
  apply pairs_rounds_consumed in H as [w [s' [c' [Hw [-> [H _]]]]]].
  rewrite take_consumed in H.
  apply rmatch_groups in H as [s3 [c3 [H [K1 _]]]].
  injection H as ->. exists w. split; [| exact Hw].
  rewrite K1; [simpl; reflexivity |].
  cbn [groups_of app]. simpl. intuition discriminate.
Qed.

Lemma digit_value_nonneg (a : ascii) : isdigit a = true -> 0 <= digit_value a.
Proof.
  unfold isdigit, digit_value. cbv zeta. intros H.
  apply andb_true_iff in H as [H _]. apply N.leb_le in H.
  assert (48 <= Z.of_N (code a)) by (change 48 with (Z.of_N 48); now apply N2Z.inj_le).
  lia.
Qed.

Lemma digits_value_from_nonneg (g : string) :
  forall acc, 0 <= acc -> all_chars isdigit g = true ->
              0 <= digits_value_from acc g.
Proof.
  induction g as [| a g IH]; intros acc Hacc H; cbn [digits_value_from];
    [exact Hacc |].
  cbn [all_chars] in H. apply andb_true_iff in H as [Ha Hg].
  apply IH; [| exact Hg]. pose proof (digit_value_nonneg a Ha). lia.
Qed.

Lemma digits_value_nonneg (g : string) :
  is_digits g = true -> 0 <= digits_value g.
Proof.
  intros H. apply digits_value_from_nonneg; [lia | now apply is_digits_all].
Qed.

(** The triple of a line that matches: where the number comes from, and
    what the timestamp text is. *)
Lemma extract_fields_inr (line_number : Z) (line : string)
  (num : Z) (nm ts : string) :
  extract_fields line_number line = inr (num, nm, ts) ->
  timestamp_token ts /\
  ((re_search CONFIG_PATTERN line <> None /\ 0 <= num) \/
   (re_search CONFIG_PATTERN line = None /\ num = line_number)).
Proof.
  unfold extract_fields, group_str.
  destruct (re_search CONFIG_PATTERN line) as [m |] eqn:Hp.
  - destruct (config_pattern_groups line m Hp)
      as [g1 [g3 [g5 [D [G1 [G3 G5]]]]]].
    destruct (config_pattern_token line m Hp) as [w [G5' Hw]].
    rewrite G1, G3, G5, !bind_ret, (py_int_digits g1 D).
    intros H. injection H as <- <- <-.
    split; [congruence |]. left. split; [discriminate |].
    now apply digits_value_nonneg.
  - destruct (re_search ALT_CONFIG_PATTERN line) as [m |] eqn:Ha;
      [| discriminate].
    destruct (alt_pattern_groups line m Ha) as [g1 [g4 [G1 G4]]].
    destruct (alt_pattern_token line m Ha) as [w [G1' Hw]].
    rewrite G1, G4, !bind_ret. intros H. injection H as <- <- <-.
    split; [congruence |]. right. split; reflexivity.
Qed.

(** ** The groups of a timestamp token *)

Lemma ends_with_cons (x a : ascii) (s : string) :
  s <> EmptyString -> ends_with x (String a s) = ends_with x s.
Proof. destruct s; [congruence | reflexivity]. Qed.

Lemma timestamp_token_nonempty (w : string) :
  timestamp_token w -> w <> EmptyString.
Proof. intros H; inversion H; discriminate. Qed.

(** A token splits into runs of digits, with one empty group at the end
    exactly when it ends with a colon. *)
Lemma timestamp_token_split (w : string) :
  timestamp_token w ->
  exists g gs,
    Forall (fun g => is_digits g = true) (g :: gs) /\
    ((split ":" w = g :: gs /\ ends_with ":" w = false) \/
     (split ":" w = ((g :: gs) ++ [EmptyString])%list /\
      ends_with ":" w = true)).
Proof.
  induction 1 as [a b Ha Hb | a b Ha Hb | a b w Ha Hb Hw IH | a b w Ha Hb Hw IH].
  - exists (String a (String b EmptyString)), [].
    split; [repeat constructor; unfold is_digits; simpl; now rewrite Ha, Hb |].
    left. simpl. rewrite (digit_not_colon a Ha), (digit_not_colon b Hb).
    split; reflexivity.
  - exists (String a (String b EmptyString)), [].
    split; [repeat constructor; unfold is_digits; simpl; now rewrite Ha, Hb |].
    right. simpl. rewrite (digit_not_colon a Ha), (digit_not_colon b Hb).
    split; reflexivity.
  - destruct IH as [g [gs [Hall IH]]].
    exists (String a (String b g)), gs. split.
    + inversion Hall as [| ? ? Hg Hgs]; subst. constructor; [| exact Hgs].
      unfold is_digits in *. simpl. rewrite Ha, Hb.
      now apply andb_true_iff in Hg as [_ ->].
    + pose proof (timestamp_token_nonempty w Hw) as Hne.
      rewrite !ends_with_cons by (try discriminate; destruct w; congruence).
      cbn [split]. rewrite (digit_not_colon a Ha), (digit_not_colon b Hb).
      destruct IH as [[-> E] | [-> E]]; [left | right];
        (split; [reflexivity | exact E]).
  - destruct IH as [g [gs [Hall IH]]].
    exists (String a (String b EmptyString)), (g :: gs). split.
    + constructor; [| exact Hall].
      unfold is_digits. simpl. now rewrite Ha, Hb.
    + pose proof (timestamp_token_nonempty w Hw) as Hne.
      rewrite !ends_with_cons by (try discriminate; destruct w; congruence).
      cbn [split]. rewrite (digit_not_colon a Ha), (digit_not_colon b Hb).
      rewrite Ascii.eqb_refl.
      destruct IH as [[-> E] | [-> E]]; [left | right];
        (split; [reflexivity | exact E]).
Qed.

Lemma map_result_empty_group (gs : list string) :
  Forall (fun g => is_digits g = true) gs ->
  map_result py_int (gs ++ [EmptyString])%list = inl (InvalidLiteral "").
Proof.
  induction 1 as [| g gs Hg _ IH]; [reflexivity |].
  cbn [app map_result]. now rewrite (py_int_digits g Hg), bind_ret, IH.
Qed.

Lemma map_digits_value_nonneg (gs : list string) :
  Forall (fun g => is_digits g = true) gs ->
  Forall (fun v => 0 <= v) (map digits_value gs).
Proof.
  induction 1 as [| g gs Hg _ IH]; simpl; constructor;
    [now apply digits_value_nonneg | exact IH].
Qed.

(** The conversion of a timestamp token. *)
Lemma time_stamp_token (ts : string) :
  timestamp_token ts ->
  (ends_with ":" ts = true ->
   time_stamp_to_seconds ts = inl (InvalidLiteral "")) /\
  (ends_with ":" ts = false ->
   (length (split ":" ts) <= 4)%nat ->
   exists sec, time_stamp_to_seconds ts = inr sec /\ 0 <= sec) /\
  (ends_with ":" ts = false ->
   (4 < length (split ":" ts))%nat ->
   time_stamp_to_seconds ts = inl (UnsupportedTimestampFormat ts)).
Proof.
  intros Hw. unfold time_stamp_to_seconds.
  destruct (timestamp_token_split ts Hw) as [g [gs [Hall [[-> E] | [-> E]]]]];
    rewrite E.
  - pose proof (map_digits_value_nonneg _ Hall) as Hnn.
    rewrite (map_result_digits _ Hall), bind_ret.
    rewrite <- (length_map digits_value).
    cbn [map] in *.
    destruct (map digits_value gs)
      as [| p1 [| p2 [| p3 [| p4 rest]]]];
      (split; [discriminate |]); cbn [length]; split; intros _ Hlen;
      try lia; try reflexivity;
      repeat match goal with
        | H : Forall _ (_ :: _) |- _ => inversion H; subst; clear H
        end;
      eexists; (split; [reflexivity | lia]).
  - rewrite (map_result_empty_group _ Hall).
    split; [reflexivity |]. split; discriminate.
Qed.

(** ** What a line that matches can still do *)

Lemma time_stamp_token_inr (ts : string) (sec : Z) :
  timestamp_token ts -> time_stamp_to_seconds ts = inr sec -> 0 <= sec.
Proof.
  intros Hw H. destruct (time_stamp_token ts Hw) as [T1 [T2 T3]].
  destruct (ends_with ":" ts) eqn:E.
  - rewrite (T1 eq_refl) in H. discriminate.
  - destruct (Nat.le_gt_cases (length (split ":" ts)) 4) as [L | L].
    + destruct (T2 eq_refl L) as [sec' [H' Hs]]. congruence.
    + rewrite (T3 eq_refl L) in H. discriminate.
Qed.


Lemma parse_line_inr (n : Z) (line : string) (num : Z) (nm : string) (sec : Z) :
  parse_line n line = inr (num, nm, sec) ->
  0 <= sec /\
  ((re_search CONFIG_PATTERN line <> None /\ 0 <= num) \/
   (re_search CONFIG_PATTERN line = None /\ num = n)).
Proof.
  unfold parse_line.
  destruct (extract_fields n line) as [e | [[num' nm'] ts]] eqn:E;
    [discriminate |].
  rewrite bind_ret. apply extract_fields_inr in E as [Hw Hn].
  destruct (time_stamp_to_seconds ts) as [e | sec'] eqn:T; [discriminate |].
  rewrite bind_ret. intros H. injection H as <- <- <-.
  split; [exact (time_stamp_token_inr ts sec' Hw T) | exact Hn].
Qed.


(** The line number only shows in the track number of the alternate syntax
    and in the failure. *)
Lemma parse_line_renumber (n n' : Z) (line : string) (num : Z) (nm : string)
  (sec : Z) :
  parse_line n line = inr (num, nm, sec) ->
  exists num', parse_line n' line = inr (num', nm, sec).
Proof.
  unfold parse_line, extract_fields.
  destruct (re_search CONFIG_PATTERN line) as [m |];
    [intros H; eexists; exact H |].
  destruct (re_search ALT_CONFIG_PATTERN line) as [m |]; [| discriminate].
  destruct (group_str m 4) as [e | g4]; [discriminate |].
  destruct (group_str m 1) as [e | g1]; [discriminate |].
  rewrite !bind_ret.
  destruct (time_stamp_to_seconds g1) as [e | s]; [discriminate |].
  rewrite !bind_ret. intros H. injection H as <- <- <-. eauto.
Qed.


(** ** Where a config fails *)



(** The entries of a config: numbers and starts are not negative. *)
Lemma parse_all_nonneg (lines : list string) :
  forall n es,
    0 <= n -> parse_all n lines = inr es ->
    Forall (fun e : entry => 0 <= fst (fst e) /\ 0 <= entry_start e) es.
Proof.
  induction lines as [| line rest IH]; intros n es Hn H.
  - injection H as <-. constructor.
  - cbn [parse_all] in H. destruct (blank line).
    + apply (IH (n + 1)); [lia | exact H].
    + destruct (parse_line n (strip line)) as [e' | [[num nm] sec]] eqn:P;
        [discriminate |].
      rewrite bind_ret in H.
      destruct (parse_all (n + 1) rest) as [e' | es'] eqn:R; [discriminate |].
      injection H as <-. constructor; [| apply (IH (n + 1)); [lia | exact R]].
      apply parse_line_inr in P as [Hs [[_ Hnum] | [_ ->]]];
        cbn [fst snd entry_start]; split; assumption.
Qed.

(** ** [strip] *)

Lemma rstrip_cons (a : ascii) (s : string) :
  rstrip (String a s) =
  match rstrip s with
  | EmptyString => if isspace a then EmptyString else String a EmptyString
  | t => String a t
  end.
Proof. reflexivity. Qed.

Lemma rstrip_idem (s : string) : rstrip (rstrip s) = rstrip s.
Proof.
  induction s as [| a s IH]; [reflexivity |].
  rewrite rstrip_cons. destruct (rstrip s) as [| b t] eqn:E.
  - destruct (isspace a) eqn:Ha; [reflexivity |].
    rewrite rstrip_cons. cbn [rstrip]. now rewrite Ha.
  - rewrite rstrip_cons, IH. reflexivity.
Qed.

Lemma lstrip_head (s : string) :
  lstrip s = EmptyString \/
  exists a t, lstrip s = String a t /\ isspace a = false.
Proof.
  induction s as [| a s IH]; [now left |].
  cbn [lstrip]. destruct (isspace a) eqn:Ha; [exact IH |]. right. eauto.
Qed.

Lemma rstrip_head (a : ascii) (s : string) :
  isspace a = false -> exists t, rstrip (String a s) = String a t.
Proof.
  intros Ha. rewrite rstrip_cons, Ha. destruct (rstrip s); eauto.
Qed.

(** Stripping twice is stripping once. *)
Lemma strip_idem (s : string) : strip (strip s) = strip s.
Proof.
  unfold strip. destruct (lstrip_head s) as [-> | [a [t [-> Ha]]]];
    [reflexivity |].
  destruct (rstrip_head a t Ha) as [t' E]. rewrite E.
  cbn [lstrip]. rewrite Ha, <- E. apply rstrip_idem.
Qed.

(** ** The descriptors of a config *)

Section ResolveFacts.

Variable album_ : string.
Variable composer_ : option string.
Variable total_discs_ disc_number_ : option Z.
Variable artist_ : option string.

Local Abbreviation new_track' :=
  (new_track album_ composer_ total_discs_ disc_number_ artist_).
Local Abbreviation resolve' :=
  (resolve_boundaries album_ composer_ total_discs_ disc_number_ artist_).

Lemma resolve_In (es : list entry) (final : option Z) (t : TrackInfo) :
  In t (resolve' es final) ->
  exists e v,
    In e es /\ t = set_track_end (new_track' e) v /\
    (v = final \/ exists e', In e' es /\ v = Some (entry_start e')).
Proof.
  induction es as [| e rest IH]; [intros [] |].
  cbn [resolve_boundaries]. intros [<- | H].
  - exists e. eexists. split; [now left |]. split; [reflexivity |].
    destruct rest as [| e' rest']; [now left |].
    right. exists e'. split; [right; now left | reflexivity].
  - destruct (IH H) as [e0 [v [He [-> Hv]]]].
    exists e0, v. split; [now right |]. split; [reflexivity |].
    destruct Hv as [-> | [e' [He' ->]]]; [now left |].
    right. exists e'. split; [now right | reflexivity].
Qed.


(** The last descriptor ends at [final], every other one where the next
    one starts. *)
Lemma resolve_ends (es : list entry) (final : option Z) :
  forall i t,
    nth_error (resolve' es final) i = Some t ->
    track_end t =
    match nth_error (resolve' es final) (S i) with
    | Some t' => Some (track_start t')
    | None => final
    end.
Proof.
  intros i t. rewrite !resolve_nth.
  destruct (nth_error es i) as [e |]; [| discriminate].
  destruct (nth_error es (S i)) as [[[num' nm'] sec'] |];
    intros H; injection H as <-; reflexivity.
Qed.

End ResolveFacts.

(** What [process_conf] returns, entry by entry. *)
Lemma process_conf_inr (file_path : string) (file : option (list string))
  (album_ : string) (duration : option Z) (composer_ : option string)
  (total_discs_ disc_number_ : option Z) (artist_ : option string)
  (tracks : list TrackInfo) :
  process_conf file_path file album_ duration composer_ total_discs_
    disc_number_ artist_ = inr tracks ->
  exists lines es,
    file = Some lines /\ parse_all 1 lines = inr es /\
    tracks = resolve_boundaries album_ composer_ total_discs_ disc_number_
               artist_ es duration.
Proof.
  destruct file as [lines |]; [| discriminate].
  rewrite process_conf_resolve.
  destruct (parse_all 1 lines) as [e | es] eqn:P; [discriminate |].
  rewrite bind_ret. intros H. injection H as <-.
  exists lines, es. split; [reflexivity |]. split; [exact P | reflexivity].
Qed.


(** ** Lines in another order *)

Local Abbreviation titled :=
  (fun e : entry => (snd (fst e), entry_start e)).

Lemma parse_all_step (n n' : Z) (x : string) (l : list string)
  (es : list entry) :
  parse_all n (x :: l) = inr es ->
  exists ex es0 ex',
    es = (ex ++ es0)%list /\ parse_all (n + 1) l = inr es0 /\
    map titled ex' = map titled ex /\
    forall l' es0',
      parse_all (n' + 1) l' = inr es0' ->
      parse_all n' (x :: l') = inr (ex' ++ es0')%list.
Proof.
  rewrite parse_all_cons. destruct (blank x) eqn:B.
  - intros H. exists [], es, []. split; [reflexivity |].
    split; [exact H |]. split; [reflexivity |].
    intros l' es0' H'. now rewrite parse_all_cons, B.
  - destruct (parse_line n (strip x)) as [e | [[num nm] sec]] eqn:P;
      [discriminate |].
    rewrite bind_ret.
    destruct (parse_all (n + 1) l) as [e | es0]; [discriminate |].
    rewrite bind_ret. intros H. injection H as <-.
    destruct (parse_line_renumber n n' _ _ _ _ P) as [num' P'].
    exists [(num, nm, sec)], es0, [(num', nm, sec)].
    split; [reflexivity |]. split; [reflexivity |]. split; [reflexivity |].
    intros l' es0' H'. now rewrite parse_all_cons, B, P', bind_ret, H'.
Qed.


Lemma parse_all_strip_eq (lines lines' : list string) :
  Forall2 (fun l l' => strip l = strip l') lines lines' ->
  forall n, parse_all n lines = parse_all n lines'.
Proof.
  induction 1 as [| l l' ls ls' E _ IH]; intros n; [reflexivity |].
  rewrite !parse_all_cons. unfold blank. now rewrite E, IH.
Qed.

Section Config.

Variable file_path : string.
Variable album_ : string.
Variable composer_ : option string.
Variable total_discs_ disc_number_ : option Z.
Variable artist_ : option string.

(** X5: a line that matches one of the patterns can still fail.  Its
    timestamp text is a run of 2-digit pairs, each with or without a colon
    behind it.  When the text ends with a colon the line fails with the
    [ValueError] of [int('')]; otherwise it converts to a number of seconds
    that is not negative when it has at most four groups, and fails as an
    unsupported format when it has more. *)
Theorem X5_matched_line (line_number : Z) (line : string)
  (num : Z) (nm ts : string) :
  extract_fields line_number line = inr (num, nm, ts) ->
  timestamp_token ts /\
  (ends_with ":" ts = true ->
   parse_line line_number line = inl (InvalidLiteral "")) /\
  (ends_with ":" ts = false -> (length (split ":" ts) <= 4)%nat ->
   exists sec, parse_line line_number line = inr (num, nm, sec) /\ 0 <= sec) /\
  (ends_with ":" ts = false -> (4 < length (split ":" ts))%nat ->
   parse_line line_number line = inl (UnsupportedTimestampFormat ts)).
Proof.
  intros E. pose proof (extract_fields_inr _ _ _ _ _ E) as [Hw _].
  destruct (time_stamp_token ts Hw) as [T1 [T2 T3]].
  unfold parse_line. rewrite E, bind_ret.
  split; [exact Hw |]. split; [| split].
  - intros C. now rewrite (T1 C).
  - intros C L. destruct (T2 C L) as [sec [-> Hs]]. exists sec.
    split; [reflexivity | exact Hs].
  - intros C L. now rewrite (T3 C L).
Qed.


(** X7: no descriptor starts before 0 or carries a negative track number,
    and a track ends at a second that is not negative or at the supplied
    duration; the end is absent only when no duration is supplied. *)
Theorem X7_nothing_negative (file : option (list string))
  (duration : option Z) (tracks : list TrackInfo) (t : TrackInfo) :
  process_conf file_path file album_ duration composer_ total_discs_
    disc_number_ artist_ = inr tracks ->
  In t tracks ->
  0 <= track_start t /\ 0 <= track_number t /\
  match track_end t with
  | Some v => 0 <= v \/ duration = Some v
  | None => duration = None
  end.
Proof.
  intros H Ht.
  apply process_conf_inr in H as [lines [es [-> [P ->]]]].
  pose proof (parse_all_nonneg lines 1 es ltac:(lia) P) as Hnn.
  rewrite Forall_forall in Hnn.
  apply resolve_In in Ht as [e [v [He [-> Hv]]]].
  rewrite track_start_resolved, track_number_resolved.
  destruct (Hnn e He) as [Hnum Hsec].
  split; [exact Hsec |]. split; [exact Hnum |].
  destruct e as [[num nm] sec]. cbn [track_end set_track_end].
  destruct Hv as [-> | [e' [He' ->]]].
  - destruct duration; [now right | reflexivity].
  - left. now apply Hnn.
Qed.

(** X8: the descriptors come in file order, one for each non-empty line.
    The descriptor of a line carries the number and the start read from
    that line and its title stripped; the album, the artist, the composer
    and the disc fields are those of the call on every descriptor, and no
    name has a blank at either end. *)
Theorem X8_descriptors_in_file_order (lines : list string)
  (duration : option Z) (tracks : list TrackInfo) :
  process_conf file_path (Some lines) album_ duration composer_ total_discs_
    disc_number_ artist_ = inr tracks ->
  length tracks = nonblank_count lines /\
  (forall i line,
     nth_error lines i = Some line -> blank line = false ->
     exists num nm sec t,
       parse_line (Z.of_nat (S i)) (strip line) = inr (num, nm, sec) /\
       nth_error tracks (nonblank_count (firstn i lines)) = Some t /\
       name t = strip nm /\ track_number t = num /\ track_start t = sec) /\
  (forall t, In t tracks ->
     album t = album_ /\ artist t = artist_ /\ composer t = composer_ /\
     total_discs t = total_discs_ /\ disc_number t = disc_number_ /\
     strip (name t) = name t).
Proof.
  intros H. apply process_conf_inr in H as [lines' [es [C [P ->]]]].
  injection C as <-.
  split; [rewrite resolve_length; exact (parse_all_length _ _ _ P) |].
  split.
  - intros i line Hn Hb.
    destruct (parse_all_nth lines i line 1 es Hn Hb P)
      as [[[num nm] sec] [Hp He]].
    replace (1 + Z.of_nat i) with (Z.of_nat (S i)) in Hp by lia.
    exists num, nm, sec. eexists. split; [exact Hp |].
    rewrite resolve_nth, He. split; [reflexivity |].
    repeat split.
  - intros t Ht. apply resolve_In in Ht as [[[num nm] sec] [v [_ [-> _]]]].
    cbn. repeat split. apply strip_idem.
Qed.


(** X10: blanks around a line, its line terminator among them, change
    nothing: two files whose lines are equal once stripped give the same
    result, descriptors or failure. *)
Theorem X10_outer_blanks_ignored (lines lines' : list string)
  (duration : option Z) :
  Forall2 (fun l l' => strip l = strip l') lines lines' ->
  process_conf file_path (Some lines) album_ duration composer_ total_discs_
    disc_number_ artist_ =
  process_conf file_path (Some lines') album_ duration composer_ total_discs_
    disc_number_ artist_.
Proof.
  intros H. rewrite !process_conf_resolve.
  now rewrite (parse_all_strip_eq _ _ H).
Qed.

End Config.

(** ** The slices and the tags of the exports *)

Lemma process_tracks_nth (tracks : list TrackInfo) (audio_len : Z)
  (out : string) (i : nat) :
  nth_error (process_tracks tracks audio_len out) i =
  option_map (export_track audio_len out) (nth_error tracks i).
Proof. unfold process_tracks. apply nth_error_map. Qed.

(** Every slice ends where the next one starts; the last one ends at the
    final boundary, or at the end of the recording when there is none. *)
Lemma slices_tile (album_ : string) (composer_ : option string)
  (total_discs_ disc_number_ : option Z) (artist_ : option string)
  (es : list entry) (final : option Z) (audio_len : Z) (out : string)
  (i : nat) (x : exported) :
  nth_error
    (process_tracks
       (resolve_boundaries album_ composer_ total_discs_ disc_number_
          artist_ es final) audio_len out) i = Some x ->
  seg_end x =
  match
    nth_error
      (process_tracks
         (resolve_boundaries album_ composer_ total_discs_ disc_number_
            artist_ es final) audio_len out) (S i)
  with
  | Some y => seg_start y
  | None => match final with Some d => d * 1000 | None => audio_len end
  end.
Proof.
  rewrite !process_tracks_nth.
  destruct (nth_error _ i) as [t |] eqn:E; [| discriminate].
  apply resolve_ends in E.
  destruct (nth_error _ (S i)) as [t' |];
    intros H; injection H as <-; cbn [option_map seg_end seg_start export_track];
    now rewrite E.
Qed.

Section MainFacts.

Variable file_stem : string -> string.
Variable dirname : string -> string.






End MainFacts.

(** X14: [process_conf] and [process_tracks] together.  Every slice ends
    where the next one starts.  The last slice ends at the duration given
    to [process_conf], in milliseconds, and at the end of the recording
    when [process_conf] is called without a duration. *)
Theorem X14_slices_follow_boundaries (file_path : string)
  (file : option (list string)) (album_ : string) (duration : option Z)
  (composer_ : option string) (total_discs_ disc_number_ : option Z)
  (artist_ : option string) (tracks : list TrackInfo) (audio_len : Z)
  (out : string) :
  process_conf file_path file album_ duration composer_ total_discs_
    disc_number_ artist_ = inr tracks ->
  forall i x,
    nth_error (process_tracks tracks audio_len out) i = Some x ->
    seg_start x mod 1000 = 0 /\
    seg_end x =
    match nth_error (process_tracks tracks audio_len out) (S i) with
    | Some y => seg_start y
    | None =>
        match duration with
        | Some d => d * 1000
        | None => audio_len
        end
    end.
Proof.
  intros H i x Hx. apply process_conf_inr in H as [lines [es [_ [_ ->]]]].
  split; [| exact (slices_tile _ _ _ _ _ _ _ _ _ _ _ Hx)].
  rewrite process_tracks_nth in Hx.
  destruct (nth_error _ i) as [t |]; [| discriminate].
  injection Hx as <-. cbn [seg_start export_track]. apply Z.mod_mul. lia.
Qed.

(** ** The layout of a line that matches *)

Section Layout.

Variable m : captures.

Local Abbreviation sep_re n :=
  (Opt (Group n (Chr (Lit " ") +> Chr (OneOf ["-"; "|"]%char))))%re.

Lemma chr_inv (cs : charset) (s : string) (c : captures) (k : cont) :
  rmatch (Chr cs) s c k = Some m ->
  exists a s', s = String a s' /\ in_charset cs a = true /\ k s' c = Some m.
Proof.
  destruct s as [| a s']; [discriminate |]. rewrite rmatch_chr.
  destruct (in_charset cs a) eqn:E; [| discriminate]. eauto.
Qed.

Lemma space_inv (s : string) (c : captures) (k : cont) :
  rmatch (Chr (Lit " ")) s c k = Some m ->
  exists s', s = String " " s' /\ k s' c = Some m.
Proof.
  intros H. apply chr_inv in H as [a [s' [-> [Ha H]]]].
  cbn [in_charset] in Ha. apply Ascii.eqb_eq in Ha as ->. eauto.
Qed.

Lemma opt_hash_inv (s : string) (c : captures) (k : cont) :
  rmatch (Opt (Chr (Lit "#"))) s c k = Some m ->
  exists h s',
    s = (h ++ s')%string /\ (h = EmptyString \/ h = "#") /\ k s' c = Some m.
Proof.
  cbn [rmatch]. destruct s as [| a s'].
  - intros H. exists EmptyString, EmptyString. auto.
  - cbn [in_charset]. destruct (Ascii.eqb_spec a "#") as [-> | Ha].
    + destruct (k s' c) as [m' |] eqn:E.
      * intros H. injection H as ->. exists "#", s'. auto.
      * intros H. exists EmptyString, (String "#" s'). auto.
    + intros H. exists EmptyString, (String a s'). auto.
Qed.

Lemma opt_sep_inv (n : nat) (s : string) (c : captures) (k : cont) :
  rmatch (sep_re n) s c k = Some m ->
  exists sep s' c',
    s = (sep ++ s')%string /\ optional_separator sep /\ k s' c' = Some m /\
    forall j, j <> n -> group c' j = group c j.
Proof.
  intros H. cbn [rmatch] in H.
  match type of H with
  | match ?o with _ => _ end = _ => destruct o as [m' |] eqn:E
  end.
  - injection H as ->.
    destruct s as [| a [| b s']]; try discriminate.
    + cbn [in_charset] in E. destruct (Ascii.eqb a " "); discriminate.
    + cbn [in_charset] in E.
      destruct (Ascii.eqb_spec a " ") as [-> | Ha]; [| discriminate].
      destruct (existsb (Ascii.eqb b) ["-"; "|"]%char) eqn:Hb; [| discriminate].
      exists (String " " (String b EmptyString)), s'. eexists.
      split; [reflexivity |].
      split; [right; exists b; split; [exact Hb | reflexivity] |].
      split; [exact E |].
      intros j Hj. cbn [group].
      destruct (Nat.eqb_spec n j); [congruence | reflexivity].
  - exists EmptyString, s, c. split; [reflexivity |].
    split; [now left |]. split; [exact H | reflexivity].
Qed.

Lemma digits_group_inv (n : nat) (s : string) (c : captures) (k : cont) :
  rmatch (Group n (Plus (Chr Digit))) s c k = Some m ->
  exists g s',
    s = (g ++ s')%string /\ is_digits g = true /\
    k s' ((n, g) :: c) = Some m.
Proof.
  rewrite rmatch_group, rmatch_plus. intros H.
  apply digits_rounds_consumed in H as [g [s' [Hg [-> H]]]].
  rewrite take_consumed in H. eauto.
Qed.

Lemma lazy_any_consumed (k : cont) :
  forall fuel s c,
    lazy_rounds (rmatch (Chr AnyChar)) k fuel s c = Some m ->
    exists t s',
      s = (t ++ s')%string /\
      all_chars (fun a => negb (Ascii.eqb a "010")) t = true /\
      k s' c = Some m.
Proof.
  induction fuel as [| fuel IH]; intros s c H; rewrite lazy_rounds_eq in H;
    destruct (k s c) as [m' |] eqn:E;
    try (injection H as ->; exists EmptyString, s; auto);
    [discriminate |].
  apply chr_inv in H as [a [s' [-> [Ha H]]]]. cbn [in_charset] in Ha.
  destruct (_ <? _)%nat; [| discriminate].
  apply IH in H as [t [s'' [-> [Ht H]]]].
  exists (String a t), s''. split; [reflexivity |].
  split; [cbn [all_chars]; now rewrite Ha, Ht | exact H].
Qed.

Lemma title_group_inv (n : nat) (s : string) (c : captures) (k : cont) :
  rmatch (Group n (LazyStar (Chr AnyChar))) s c k = Some m ->
  exists t s',
    s = (t ++ s')%string /\
    all_chars (fun a => negb (Ascii.eqb a "010")) t = true /\
    k s' ((n, t) :: c) = Some m.
Proof.
  rewrite rmatch_group, rmatch_lazy. intros H.
  apply lazy_any_consumed in H as [t [s' [-> [Ht H]]]].
  rewrite take_consumed in H. eauto.
Qed.

Lemma token_group_inv (n n' : nat) (s : string) (c : captures) (k : cont) :
  rmatch (Group n (Plus (Group n'
            (Chr Digit +> Chr Digit +> Opt (Chr (Lit ":"))))))%re s c k
    = Some m ->
  exists w s' c',
    s = (w ++ s')%string /\ timestamp_token w /\
    k s' ((n, w) :: c') = Some m /\
    forall j, j <> n' -> group c' j = group c j.
Proof.
  rewrite rmatch_group, rmatch_plus. intros H.
  apply pairs_rounds_consumed in H as [w [s' [c' [Hw [-> [H Hg]]]]]].
  rewrite take_consumed in H. exists w, s', c'. auto.
Qed.

End Layout.

(** A line the primary pattern matches, piece by piece. *)
Lemma config_pattern_layout (s : string) (m : captures) :
  re_search CONFIG_PATTERN s = Some m ->
  exists pre hash g1 sep1 g3 sep2 g5 post,
    s = (pre ++ hash ++ g1 ++ sep1 ++ " " ++ g3 ++ sep2 ++ " " ++ g5 ++ post)%string /\
    (hash = EmptyString \/ hash = "#") /\
    is_digits g1 = true /\ optional_separator sep1 /\
    all_chars (fun a => negb (Ascii.eqb a "010")) g3 = true /\
    optional_separator sep2 /\ timestamp_token g5 /\
    group m 1 = Some g1 /\ group m 3 = Some g3 /\ group m 5 = Some g5.
Proof.
  intros H. apply re_search_sound in H as [s0 [[pre ->] H]].
  unfold re_match, CONFIG_PATTERN in H.
  rewrite rmatch_cat in H.
  apply opt_hash_inv in H as [hash [s1 [-> [Hh H]]]].
  rewrite rmatch_cat in H.
  apply digits_group_inv in H as [g1 [s2 [-> [Hg1 H]]]].
  rewrite rmatch_cat in H.
  apply opt_sep_inv in H as [sep1 [s3 [c3 [-> [Hs1 [H K3]]]]]].
  rewrite rmatch_cat in H. apply space_inv in H as [s4 [-> H]].
  rewrite rmatch_cat in H.
  apply title_group_inv in H as [g3 [s5 [-> [Hg3 H]]]].
  rewrite rmatch_cat in H.
  apply opt_sep_inv in H as [sep2 [s6 [c6 [-> [Hs2 [H K6]]]]]].
  rewrite rmatch_cat in H. apply space_inv in H as [s7 [-> H]].
  apply token_group_inv in H as [g5 [post [c8 [-> [Hg5 [H K8]]]]]].
  injection H as <-.
  exists pre, hash, g1, sep1, g3, sep2, g5, post.
  split; [reflexivity |].
  repeat (split; [assumption |]).
  cbn [group Nat.eqb].
  rewrite !K8, !K6 by discriminate. cbn [group Nat.eqb].
  rewrite K3 by discriminate. cbn [group Nat.eqb].
  repeat split.
Qed.

(** A line the alternate pattern matches, piece by piece. *)
Lemma alt_pattern_layout (s : string) (m : captures) :
  re_search ALT_CONFIG_PATTERN s = Some m ->
  exists pre g1 sep g4 tail,
    s = (pre ++ g1 ++ sep ++ " " ++ g4 ++ tail)%string /\
    timestamp_token g1 /\ optional_separator sep /\
    all_chars (fun a => negb (Ascii.eqb a "010")) g4 = true /\
    at_end tail = true /\
    group m 1 = Some g1 /\ group m 4 = Some g4.
Proof.
  intros H. apply re_search_sound in H as [s0 [[pre ->] H]].
  unfold re_match, ALT_CONFIG_PATTERN in H.
  rewrite rmatch_cat in H.
  apply token_group_inv in H as [g1 [s1 [c1 [-> [Hg1 [H K1]]]]]].
  rewrite rmatch_cat in H.
  apply opt_sep_inv in H as [sep [s2 [c2 [-> [Hs [H K2]]]]]].
  rewrite rmatch_cat in H. apply space_inv in H as [s3 [-> H]].
  rewrite rmatch_cat in H.
  apply title_group_inv in H as [g4 [tail [-> [Hg4 H]]]].
  cbn [rmatch] in H. destruct (at_end tail) eqn:E; [| discriminate].
  injection H as <-.
  exists pre, g1, sep, g4, tail.
  split; [reflexivity |].
  repeat (split; [assumption |]).
  cbn [group Nat.eqb]. rewrite K2 by discriminate.
  cbn [group Nat.eqb]. split; reflexivity.
Qed.

(** X15: what a line read under the primary syntax looks like.  The line
    is some text, an optional [#], a run of digits, an optional separator,
    a space, the title, an optional separator, a space, the timestamp text,
    and some text again.  The track number is the number the run of digits
    denotes, and the title and the timestamp text are those pieces of the
    line; the title holds no line feed. *)
Theorem X15_primary_layout (line_number : Z) (line : string)
  (num : Z) (nm ts : string) :
  re_search CONFIG_PATTERN line <> None ->
  extract_fields line_number line = inr (num, nm, ts) ->
  exists pre hash g1 sep1 sep2 post,
    line = (pre ++ hash ++ g1 ++ sep1 ++ " " ++ nm ++ sep2 ++ " " ++ ts
            ++ post)%string /\
    (hash = EmptyString \/ hash = "#") /\
    is_digits g1 = true /\ num = digits_value g1 /\
    optional_separator sep1 /\ optional_separator sep2 /\
    all_chars (fun a => negb (Ascii.eqb a "010")) nm = true /\
    timestamp_token ts.
Proof.
  unfold extract_fields, group_str.
  destruct (re_search CONFIG_PATTERN line) as [m |] eqn:Hp; [| congruence].
  intros _.
  destruct (config_pattern_layout line m Hp)
    as [pre [hash [g1 [sep1 [g3 [sep2 [g5 [post
         [E [Hh [D [S1 [T [S2 [W [G1 [G3 G5]]]]]]]]]]]]]]]]].
  rewrite G1, G3, G5, !bind_ret, (py_int_digits g1 D).
  intros H. injection H as <- <- <-.
  exists pre, hash, g1, sep1, sep2, post.
  split; [exact E |]. split; [exact Hh |]. split; [exact D |].
  split; [reflexivity |]. repeat (split; [assumption |]). exact W.
Qed.

(** X16: what a line read under the alternate syntax looks like.  The
    line is some text, the timestamp text, an optional separator, a space
    and the title, which runs to the end of the line and holds no line
    feed.  The track number is the number of the line. *)
Theorem X16_alternate_layout (line_number : Z) (line : string)
  (num : Z) (nm ts : string) :
  re_search CONFIG_PATTERN line = None ->
  extract_fields line_number line = inr (num, nm, ts) ->
  num = line_number /\
  exists pre sep tail,
    line = (pre ++ ts ++ sep ++ " " ++ nm ++ tail)%string /\
    timestamp_token ts /\ optional_separator sep /\
    all_chars (fun a => negb (Ascii.eqb a "010")) nm = true /\
    at_end tail = true.
Proof.
  unfold extract_fields, group_str. intros Hp. rewrite Hp.
  destruct (re_search ALT_CONFIG_PATTERN line) as [m |] eqn:Ha;
    [| discriminate].
  destruct (alt_pattern_layout line m Ha)
    as [pre [g1 [sep [g4 [tail [E [W [S [T [A [G1 G4]]]]]]]]]]].
  rewrite G1, G4, !bind_ret. intros H. injection H as <- <- <-.
  split; [reflexivity |]. exists pre, sep, tail.
  split; [exact E |]. repeat (split; [assumption |]). exact A.
Qed.

(** ** Lines with a timestamp text of any shape *)

Lemma token_first_digit (w : string) :
  timestamp_token w -> first_is isdigit w = true.
Proof. intros H; inversion H; subst; assumption. Qed.

Lemma token_no_space (w : string) :
  timestamp_token w ->
  all_chars (fun a => negb (Ascii.eqb a " ")) w = true.
Proof.
  induction 1 as [a b Ha Hb | a b Ha Hb | a b w Ha Hb Hw IH | a b w Ha Hb Hw IH];
    cbn [all_chars];
    rewrite (digit_not_space a Ha), (digit_not_space b Hb), ?IH; reflexivity.
Qed.

Lemma token_length (w : string) :
  timestamp_token w -> (2 <= String.length w)%nat.
Proof. intros H; inversion H; subst; cbn [String.length]; lia. Qed.

Lemma space_digit_skip (p s : string) :
  all_chars (fun a => negb (Ascii.eqb a " ")) p = true ->
  space_digit (p ++ s) = space_digit s.
Proof.
  induction p as [| a p IH]; [reflexivity |].
  cbn [all_chars]. intros H. apply andb_true_iff in H as [Ha Hp].
  apply negb_true_iff in Ha.
  change (String a p ++ s)%string with (String a (p ++ s)).
  cbn [space_digit]. now rewrite Ha, (IH Hp).
Qed.

Section TokenRounds.

Variable n : nat.

Local Abbreviation pair_re :=
  (Group n (Chr Digit +> Chr Digit +> Opt (Chr (Lit ":"))))%re.

(** One round over two digits and the colon behind them. *)
Lemma pair_round_colon (a b : ascii) (rest : string) (c : captures)
  (k : cont) (m : captures) :
  isdigit a = true -> isdigit b = true ->
  k rest ((n, String a (String b (String ":" EmptyString))) :: c) = Some m ->
  rmatch pair_re (String a (String b (String ":" rest))) c k = Some m.
Proof.
  intros Ha Hb Hk.
  rewrite rmatch_group, rmatch_cat, rmatch_chr. cbn [in_charset].
  rewrite Ha. cbv beta. rewrite rmatch_cat, rmatch_chr. cbn [in_charset].
  rewrite Hb. cbv beta. apply rmatch_opt_take.
  rewrite rmatch_chr. cbn [in_charset]. rewrite Ascii.eqb_refl.
  replace (String.length (String a (String b (String ":" rest)))
           - String.length rest)%nat
    with 3%nat by (cbn [String.length]; lia).
  exact Hk.
Qed.

(** [(\d{2}\:{0,1})+] takes a whole timestamp text when what follows is
    neither a digit nor a colon; the rounds leave the groups other than
    their own as they were. *)
Lemma token_greedy (w : string) :
  timestamp_token w ->
  forall rest c,
    ends_timestamp rest = true ->
    exists c',
      (forall j, j <> n -> group c' j = group c j) /\
      forall fuel k m,
        (String.length w <= S fuel)%nat ->
        k rest c' = Some m ->
        greedy_rounds (rmatch pair_re) k fuel (w ++ rest) c = Some m.
Proof.
  assert (G : forall v c j, j <> n -> group ((n, v) :: c) j = group c j).
  { intros v c j Hj. cbn [group].
    destruct (Nat.eqb_spec n j); [congruence | reflexivity]. }
  assert (Stop : forall rest fuel k c,
            ends_timestamp rest = true ->
            greedy_rounds (rmatch pair_re) k fuel rest c = None).
  { intros rest fuel k c Hrest. rewrite greedy_rounds_eq.
    apply pair_round_fails. unfold ends_timestamp in Hrest.
    apply negb_true_iff in Hrest. destruct rest as [| y r]; [reflexivity |].
    cbn [first_is] in *. now apply orb_false_iff in Hrest as [Hrest _]. }
  assert (NoColon : forall rest,
            ends_timestamp rest = true ->
            first_is (fun x => Ascii.eqb x ":") rest = false).
  { intros rest Hrest. unfold ends_timestamp in Hrest.
    apply negb_true_iff in Hrest. destruct rest as [| y r]; [reflexivity |].
    cbn [first_is] in *. now apply orb_false_iff in Hrest as [_ Hrest]. }
  induction 1 as [a b Ha Hb | a b Ha Hb | a b w Ha Hb Hw IH | a b w Ha Hb Hw IH];
    intros rest c Hrest.
  - exists ((n, String a (String b EmptyString)) :: c).
    split; [intros j Hj; now apply G |].
    intros fuel k m _ Hk. rewrite greedy_rounds_eq.
    cbn [append].
    rewrite (pair_round n a b rest c _ Ha Hb (NoColon rest Hrest)).
    destruct fuel as [| fuel']; [exact Hk |].
    destruct (_ <? _)%nat; [| exact Hk].
    now rewrite (Stop rest fuel' k _ Hrest).
  - exists ((n, String a (String b (String ":" EmptyString))) :: c).
    split; [intros j Hj; now apply G |].
    intros fuel k m _ Hk. rewrite greedy_rounds_eq.
    cbn [append]. apply (pair_round_colon a b rest c _ m Ha Hb).
    destruct fuel as [| fuel']; [exact Hk |].
    destruct (_ <? _)%nat; [| exact Hk].
    now rewrite (Stop rest fuel' k _ Hrest).
  - destruct (IH rest ((n, String a (String b EmptyString)) :: c) Hrest)
      as [c' [Hg Hrun]].
    exists c'. split; [intros j Hj; now rewrite Hg, G |].
    intros fuel k m Hfuel Hk. rewrite greedy_rounds_eq.
    change (String a (String b w) ++ rest)%string
      with (String a (String b (w ++ rest))).
    assert (Hc : first_is (fun x => Ascii.eqb x ":") (w ++ rest) = false).
    { pose proof (token_first_digit w Hw) as Hd.
      destruct w as [| x w']; [discriminate |]. cbn [append first_is] in *.
      now apply digit_not_colon. }
    rewrite (pair_round n a b _ c _ Ha Hb Hc).
    pose proof (token_length w Hw) as Hl.
    destruct fuel as [| fuel']; [cbn [String.length] in Hfuel; lia |].
    replace (String.length (w ++ rest)
             <? String.length (String a (String b (w ++ rest))))%nat
      with true by (symmetry; apply Nat.ltb_lt; cbn [String.length]; lia).
    rewrite (Hrun fuel' k m); [reflexivity | | exact Hk].
    cbn [String.length] in Hfuel. lia.
  - destruct (IH rest ((n, String a (String b (String ":" EmptyString))) :: c)
                Hrest) as [c' [Hg Hrun]].
    exists c'. split; [intros j Hj; now rewrite Hg, G |].
    intros fuel k m Hfuel Hk. rewrite greedy_rounds_eq.
    change (String a (String b (String ":" w)) ++ rest)%string
      with (String a (String b (String ":" (w ++ rest)))).
    apply (pair_round_colon a b _ c _ m Ha Hb).
    pose proof (token_length w Hw) as Hl.
    destruct fuel as [| fuel']; [cbn [String.length] in Hfuel; lia |].
    replace (String.length (w ++ rest)
             <? String.length
                  (String a (String b (String ":" (w ++ rest)))))%nat
      with true by (symmetry; apply Nat.ltb_lt; cbn [String.length]; lia).
    rewrite (Hrun fuel' k m); [reflexivity | | exact Hk].
    cbn [String.length] in Hfuel. lia.
Qed.

End TokenRounds.

(** The primary pattern on [num sep title sep w] for a timestamp text
    [w]. *)
Lemma config_pattern_token_match (num title w : string) (b1 b2 : ascii) :
  is_digits num = true ->
  all_chars (fun a => negb (isdigit a)) title = true ->
  all_chars (fun a => negb (Ascii.eqb a "010")) title = true ->
  timestamp_token w ->
  is_bar b1 = true -> is_bar b2 = true ->
  exists m,
    re_search CONFIG_PATTERN
      (num ++ separator b1 ++ title ++ separator b2 ++ w) = Some m /\
    group m 1 = Some num /\ group m 3 = Some title /\ group m 5 = Some w.
Proof.
  intros Hnum Hnd Hnl Hw Hb1 Hb2.
  destruct (token_greedy 6 w Hw EmptyString
              [(4%nat, String " " (String b2 EmptyString)); (3%nat, title);
               (2%nat, String " " (String b1 EmptyString)); (1%nat, num)]
              eq_refl) as [c' [Hg Hrun]].
  exists ((5%nat, w) :: c').
  split.
  - apply re_search_here. unfold re_match, CONFIG_PATTERN.
    rewrite rmatch_cat, rmatch_opt_skip
      by (apply hash_fails, first_is_app, is_digits_first, Hnum).
    cbv beta. rewrite rmatch_cat, rmatch_group, rmatch_plus.
    apply digits_greedy;
      [exact Hnum | rewrite str_length_app; lia | reflexivity |].
    rewrite take_consumed. unfold separator at 1. cbn [append].
    rewrite rmatch_cat. apply separator_taken; [exact Hb1 |].
    rewrite rmatch_cat, rmatch_chr. cbn [in_charset].
    rewrite Ascii.eqb_refl. cbv beta.
    rewrite rmatch_cat, rmatch_group, rmatch_lazy.
    apply lazy_any; [exact Hnl | rewrite str_length_app; lia | |].
    + intros t1 t2 -> Hne2. apply all_chars_app_r in Hnd.
      apply config_tail_fails; apply no_digit_at; auto.
    + rewrite take_consumed. unfold separator. cbn [append].
      rewrite rmatch_cat. apply separator_taken; [exact Hb2 |].
      rewrite rmatch_cat, rmatch_chr. cbn [in_charset].
      rewrite Ascii.eqb_refl. cbv beta.
      rewrite rmatch_group, rmatch_plus.
      rewrite <- (str_app_nil_r w) at 2.
      apply Hrun; [lia |].
      cbn [String.length]. now rewrite Nat.sub_0_r, take_all.
  - cbn [group Nat.eqb]. rewrite !Hg by discriminate.
    cbn [group Nat.eqb]. repeat split.
Qed.

(** The alternate pattern on [w sep title] for a timestamp text [w]. *)
Lemma alt_pattern_token_match (w title : string) (b : ascii) :
  timestamp_token w ->
  all_chars (fun a => negb (Ascii.eqb a "010")) title = true ->
  is_bar b = true ->
  exists m,
    re_match ALT_CONFIG_PATTERN (w ++ separator b ++ title) = Some m /\
    group m 1 = Some w /\ group m 4 = Some title.
Proof.
  intros Hw Hnl Hb.
  destruct (token_greedy 2 w Hw (separator b ++ title) [] eq_refl)
    as [c' [Hg Hrun]].
  exists ((4%nat, title) :: (3%nat, String " " (String b EmptyString))
          :: (1%nat, w) :: c').
  split.
  - unfold re_match, ALT_CONFIG_PATTERN.
    rewrite rmatch_cat, rmatch_group, rmatch_plus.
    apply Hrun; [rewrite str_length_app; lia |].
    rewrite take_consumed. unfold separator. cbn [append].
    rewrite rmatch_cat. apply separator_taken; [exact Hb |].
    rewrite rmatch_cat, rmatch_chr. cbn [in_charset].
    rewrite Ascii.eqb_refl. cbv beta.
    rewrite rmatch_cat, rmatch_group, rmatch_lazy.
    apply lazy_any_end; [exact Hnl | lia | |].
    + intros t1 [| a t2] -> Hne2; [congruence |].
      apply all_chars_app_r in Hnl. cbn [rmatch].
      now rewrite (at_end_false a t2 Hnl).
    + cbn [rmatch at_end String.length]. now rewrite Nat.sub_0_r, take_all.
  - split; reflexivity.
Qed.

(** X17: the usual lines are read as meant.  Take a run of digits [num],
    a title without digit or line feed, two separators, and a timestamp
    text [w]: 2-digit pairs, each with or without a colon behind it.  The
    line [num sep title sep w] is read under the primary syntax, with the
    number [num] denotes, and the line [w sep title] under the alternate
    one, with the number of the line; both give the title and the whole of
    [w] as timestamp text. *)
Theorem X17_usual_lines (line_number : Z) (num title w : string)
  (b1 b2 : ascii) :
  is_digits num = true ->
  all_chars (fun a => negb (isdigit a)) title = true ->
  all_chars (fun a => negb (Ascii.eqb a "010")) title = true ->
  is_bar b1 = true -> is_bar b2 = true ->
  timestamp_token w ->
  extract_fields line_number
    (num ++ separator b1 ++ title ++ separator b2 ++ w) =
    inr (digits_value num, title, w) /\
  re_search CONFIG_PATTERN (w ++ separator b1 ++ title) = None /\
  extract_fields line_number (w ++ separator b1 ++ title) =
    inr (line_number, title, w).
Proof.
  intros Hnum Hnd Hnl Hb1 Hb2 Hw.
  destruct (config_pattern_token_match num title w b1 b2
              Hnum Hnd Hnl Hw Hb1 Hb2) as [m [Hm [G1 [G3 G5]]]].
  destruct (alt_pattern_token_match w title b1 Hw Hnl Hb1)
    as [m' [Hm' [G1' G4']]].
  assert (Hno : re_search CONFIG_PATTERN (w ++ separator b1 ++ title) = None).
  { apply config_pattern_no_match.
    rewrite (space_digit_skip _ _ (token_no_space w Hw)).
    exact (alt_line_no_space_digit EmptyString title b1 eq_refl Hnd Hb1). }
  split; [| split; [exact Hno |]].
  - unfold extract_fields, group_str.
    now rewrite Hm, G1, G3, G5, !bind_ret, (py_int_digits num Hnum).
  - unfold extract_fields, group_str.
    now rewrite Hno, (re_search_here _ _ _ Hm'), G1', G4'.
Qed.

(** ** Blank lines *)

(** Without its blank lines a config gives the same titles and starts. *)
Lemma parse_all_nonblank (lines : list string) :
  forall n n' es,
    parse_all n lines = inr es ->
    exists es',
      parse_all n' (filter (fun l => negb (blank l)) lines) = inr es' /\
      map titled es' = map titled es.
Proof.
  induction lines as [| x l IH]; intros n n' es H.
  - injection H as <-. exists []. split; reflexivity.
  - cbn [filter]. destruct (blank x) eqn:B; cbn [negb].
    + rewrite parse_all_cons, B in H. exact (IH _ n' _ H).
    + destruct (parse_all_step n n' _ _ _ H)
        as [ex [es0 [ex' [-> [H0 [Hm Hk]]]]]].
      destruct (IH _ (n' + 1) _ H0) as [es0' [H0' Hm']].
      exists (ex' ++ es0')%list. split; [now apply Hk |].
      now rewrite !map_app, Hm, Hm'.
Qed.

(** Names, starts and ends only depend on the titles and starts of the
    entries. *)
Lemma resolve_titled (album_ : string) (composer_ : option string)
  (total_discs_ disc_number_ : option Z) (artist_ : option string)
  (final : option Z) (es : list entry) :
  forall es',
    map titled es' = map titled es ->
    map (fun t => (name t, track_start t, track_end t))
      (resolve_boundaries album_ composer_ total_discs_ disc_number_ artist_
         es' final) =
    map (fun t => (name t, track_start t, track_end t))
      (resolve_boundaries album_ composer_ total_discs_ disc_number_ artist_
         es final).
Proof.
  induction es as [| [[num nm] sec] rest IH]; intros [| [[num' nm'] sec'] rest'] H;
    try discriminate; [reflexivity |].
  cbn [map fst snd entry_start] in H. injection H as -> -> H.
  cbn [resolve_boundaries map]. rewrite (IH _ H). f_equal.
  cbn [name track_start track_end set_track_end new_track].
  destruct rest as [| [[n1 t1] s1] r]; destruct rest' as [| [[n2 t2] s2] r'];
    try discriminate; [reflexivity |].
  cbn [map fst snd entry_start] in H. now injection H as _ ->.
Qed.

Section Blank.

Variable file_path : string.
Variable album_ : string.
Variable composer_ : option string.
Variable total_discs_ disc_number_ : option Z.
Variable artist_ : option string.

(** X18: blank lines only count for the line numbers.  A config that is
    accepted is accepted without its blank lines as well, and gives the
    same names, starts and ends in the same order. *)
Theorem X18_blank_lines (lines : list string) (duration : option Z)
  (tracks : list TrackInfo) :
  process_conf file_path (Some lines) album_ duration composer_ total_discs_
    disc_number_ artist_ = inr tracks ->
  exists tracks',
    process_conf file_path (Some (filter (fun l => negb (blank l)) lines))
      album_ duration composer_ total_discs_ disc_number_ artist_ =
      inr tracks' /\
    map (fun t => (name t, track_start t, track_end t)) tracks' =
    map (fun t => (name t, track_start t, track_end t)) tracks.
Proof.
  intros H. apply process_conf_inr in H as [l0 [es [C [P ->]]]].
  injection C as <-.
  destruct (parse_all_nonblank _ 1 1 es P) as [es' [P' Hm]].
  eexists. split; [rewrite process_conf_resolve, P'; reflexivity |].
  now apply resolve_titled.
Qed.

End Blank.

(** ** Instances of the theorems on the exports, on [main] and on the lines *)

Lemma X1_witness :
  out_dir (export_track 5000 "out" example_track) = "out" /\
  all_chars (fun a => negb (in_charset FORBIDDEN a))
    (out_file (export_track 5000 "out" example_track)) = true /\
  exists stem,
    out_file (export_track 5000 "out" example_track) = (stem ++ ".mp3")%string.
Proof.
  apply (X1_export_names_clean [example_track] 5000 "out").
  left. reflexivity.
Defined.

Lemma X3_witness :
  out_file (export_track 5000 "out" example_track) =
    out_file (export_track 5000 "out" (mkTrackInfo "ACDC: Live?" 2 5 None
                                         "Album" None None None None)) /\
  out_dir (export_track 5000 "out" example_track) =
    out_dir (export_track 5000 "out" (mkTrackInfo "ACDC: Live?" 2 5 None
                                        "Album" None None None None)) /\
  tag_of "tracktitle" (out_tags (export_track 5000 "out" example_track)) <>
    tag_of "tracktitle"
      (out_tags (export_track 5000 "out" (mkTrackInfo "ACDC: Live?" 2 5 None
                                            "Album" None None None None))).
Proof.
  apply (X3_name_collision 5000 "out" example_track
           (mkTrackInfo "ACDC: Live?" 2 5 None "Album" None None None None)
           "AC" "DC: Live?" "/"); reflexivity.
Defined.

Lemma X5_witness :
  timestamp_token "00:00:" /\
  (ends_with ":" "00:00:" = true ->
   parse_line 1 "1 - A - 00:00:" = inl (InvalidLiteral "")) /\
  (ends_with ":" "00:00:" = false -> (length (split ":" "00:00:") <= 4)%nat ->
   exists sec, parse_line 1 "1 - A - 00:00:" = inr (1, "A", sec) /\ 0 <= sec) /\
  (ends_with ":" "00:00:" = false -> (4 < length (split ":" "00:00:"))%nat ->
   parse_line 1 "1 - A - 00:00:" = inl (UnsupportedTimestampFormat "00:00:")).
Proof.
  apply (X5_matched_line 1 "1 - A - 00:00:" 1 "A" "00:00:").
  vm_compute. reflexivity.
Defined.


Lemma X7_witness :
  exists tracks t,
    process_conf "config.txt" (Some example_lines) "Album" (Some 720)
      None None None None = inr tracks /\
    In t tracks /\
    0 <= track_start t /\ 0 <= track_number t /\
    match track_end t with
    | Some v => 0 <= v \/ Some 720 = Some v
    | None => Some 720 = None
    end.
Proof.
  eexists. eexists. split; [vm_compute; reflexivity |].
  split; [left; reflexivity |].
  eapply (X7_nothing_negative "config.txt" "Album" None None None None
           (Some example_lines) (Some 720));
    [vm_compute; reflexivity | left; reflexivity].
Defined.

Lemma X8_witness :
  exists tracks,
    process_conf "config.txt" (Some example_lines) "Album" (Some 720)
      None None None None = inr tracks /\
    length tracks = nonblank_count example_lines /\
    (forall i line,
       nth_error example_lines i = Some line -> blank line = false ->
       exists num nm sec t,
         parse_line (Z.of_nat (S i)) (strip line) = inr (num, nm, sec) /\
         nth_error tracks (nonblank_count (firstn i example_lines)) = Some t /\
         name t = strip nm /\ track_number t = num /\ track_start t = sec) /\
    (forall t, In t tracks ->
       album t = "Album" /\ artist t = None /\ composer t = None /\
       total_discs t = None /\ disc_number t = None /\
       strip (name t) = name t).
Proof.
  eexists. split; [vm_compute; reflexivity |].
  apply (X8_descriptors_in_file_order "config.txt" "Album" None None None
           None example_lines (Some 720)).
  vm_compute. reflexivity.
Defined.


Lemma X10_witness :
  process_conf "config.txt"
    (Some [String "009" "1 - A - 00:00" ++ String "013" (String "010" "")])
    "Album" (Some 20) None None None None =
  process_conf "config.txt" (Some ["1 - A - 00:00"]) "Album" (Some 20)
    None None None None.
Proof.
  apply (X10_outer_blanks_ignored "config.txt" "Album" None None None None).
  constructor; [vm_compute; reflexivity | constructor].
Defined.



Lemma X14_witness :
  exists tracks,
    process_conf "config.txt" (Some example_lines) "Album" None
      None None None None = inr tracks /\
    forall i x,
      nth_error (process_tracks tracks 720500 "out") i = Some x ->
      seg_start x mod 1000 = 0 /\
      seg_end x =
      match nth_error (process_tracks tracks 720500 "out") (S i) with
      | Some y => seg_start y
      | None => 720500
      end.
Proof.
  eexists. split; [vm_compute; reflexivity |].
  apply (X14_slices_follow_boundaries "config.txt" (Some example_lines)
           "Album" None None None None None).
  vm_compute. reflexivity.
Defined.

Lemma X15_witness :
  exists pre hash g1 sep1 sep2 post,
    "Track #12 | Main theme - 03:15 (live)" =
      (pre ++ hash ++ g1 ++ sep1 ++ " " ++ "Main theme" ++ sep2 ++ " "
       ++ "03:15" ++ post)%string /\
    (hash = EmptyString \/ hash = "#") /\
    is_digits g1 = true /\ 12 = digits_value g1 /\
    optional_separator sep1 /\ optional_separator sep2 /\
    all_chars (fun a => negb (Ascii.eqb a "010")) "Main theme" = true /\
    timestamp_token "03:15".
Proof.
  apply (X15_primary_layout 7 "Track #12 | Main theme - 03:15 (live)"
           12 "Main theme" "03:15");
    [vm_compute; discriminate | vm_compute; reflexivity].
Defined.

Lemma X16_witness :
  7 = 7 /\
  exists pre sep tail,
    "at 03:15 - Main theme" =
      (pre ++ "03:15" ++ sep ++ " " ++ "Main theme" ++ tail)%string /\
    timestamp_token "03:15" /\ optional_separator sep /\
    all_chars (fun a => negb (Ascii.eqb a "010")) "Main theme" = true /\
    at_end tail = true.
Proof.
  apply (X16_alternate_layout 7 "at 03:15 - Main theme" 7 "Main theme"
           "03:15"); vm_compute; reflexivity.
Defined.

Lemma X17_witness :
  extract_fields 7 ("12" ++ separator "-" ++ "Main" ++ separator "|" ++ "03:15")
    = inr (digits_value "12", "Main", "03:15") /\
  re_search CONFIG_PATTERN ("03:15" ++ separator "-" ++ "Main") = None /\
  extract_fields 7 ("03:15" ++ separator "-" ++ "Main") =
    inr (7, "Main", "03:15").
Proof.
  apply (X17_usual_lines 7 "12" "Main" "03:15" "-" "|");
    try reflexivity.
  apply token_more_colon; [reflexivity | reflexivity |].
  apply token_pair; reflexivity.
Defined.

Lemma X18_witness :
  exists tracks,
    process_conf "config.txt" (Some [""; "00:00 Intro"; " "; "03:15 - Main"])
      "Album" (Some 720) None None None None = inr tracks /\
    exists tracks',
      process_conf "config.txt"
        (Some (filter (fun l => negb (blank l))
                 [""; "00:00 Intro"; " "; "03:15 - Main"]))
        "Album" (Some 720) None None None None = inr tracks' /\
      map (fun t => (name t, track_start t, track_end t)) tracks' =
      map (fun t => (name t, track_start t, track_end t)) tracks.
Proof.
  eexists. split; [vm_compute; reflexivity |].
  apply (X18_blank_lines "config.txt" "Album" None None None None
           [""; "00:00 Intro"; " "; "03:15 - Main"] (Some 720)).
  vm_compute. reflexivity.
Defined.
